(** * Bayesian optimisation core of horovod: a shallow embedding

    Source: horovod/common/optim/bayesian_optimization.cc.

    [double] is the kernel's binary64 [float]; Eigen's [VectorXd] is a list of
    floats and [MatrixXd] a list of rows.  Code that Eigen or the standard
    library would abort on (reading a coefficient past the end, [maxCoeff] of
    an empty vector, a row of the wrong width) returns [None].  What the
    session takes from outside (the C library's [exp] and [erfc], the
    surrogate's predictions, the finite-difference gradient, the L-BFGS
    solver, the random source) is a parameter of the model. *)

From Stdlib Require Import List ZArith Bool Lia Floats.
Import ListNotations.

Local Open Scope float_scope.

(** ** Partial results *)

Definition bind {A B : Type} (c : option A) (k : A -> option B) : option B :=
  match c with
  | Some a => k a
  | None => None
  end.

Declare Scope fallible_scope.
Delimit Scope fallible_scope with fallible.
Notation "x <- c ;; k" := (bind c (fun x => k))
  (at level 61, c at next level, right associativity) : fallible_scope.
Notation "' p <- c ;; k" := (bind c (fun x => match x with p => k end))
  (at level 61, p pattern, c at next level, right associativity) : fallible_scope.
Local Open Scope fallible_scope.

Lemma bind_Some {A B : Type} (c : option A) (k : A -> option B) (b : B) :
  bind c k = Some b <-> exists a, c = Some a /\ k a = Some b.
Proof.
  destruct c as [a|]; simpl; split.
  - intros H. now exists a.
  - intros [a' [E H]]. now inversion E; subst.
  - discriminate.
  - intros [a' [E _]]. discriminate.
Qed.

(** ** Eigen vectors and matrices *)

Definition vector := list float.
Definition matrix := list vector.

(** [VectorXd::Zero(n)] *)
Definition Zero (n : nat) : vector := repeat 0 n.

(** [v[i]], a read *)
Definition coeff (v : vector) (i : nat) : option float := nth_error v i.

(** [v[i] = a], a write *)
Fixpoint set_coeff (v : vector) (i : nat) (a : float) : option vector :=
  match v, i with
  | [], _ => None
  | _ :: v', O => Some (a :: v')
  | b :: v', S i' => v'' <- set_coeff v' i' a ;; Some (b :: v'')
  end.

(** Coefficient-wise binary operations of arrays of one size. *)
Fixpoint cwise2 {A B C : Type} (op : A -> B -> C) (u : list A) (v : list B) : list C :=
  match u, v with
  | a :: u', b :: v' => op a b :: cwise2 op u' v'
  | _, _ => []
  end.

(** [v.maxCoeff()]: the reduction keeps the running value unless the next
    coefficient is greater; Eigen requires a non-empty vector. *)
Definition maxCoeff (v : vector) : option float :=
  match v with
  | [] => None
  | a :: v' => Some (fold_left (fun acc b => if acc <? b then b else acc) v' a)
  end.

(** [MatrixXd m(rows.size(), cols); m.row(i) = rows[i]]: each row has [cols]
    coefficients. *)
Fixpoint fill_rows (cols : nat) (rows : list vector) : option matrix :=
  match rows with
  | [] => Some []
  | r :: rows' =>
      if Nat.eqb (length r) cols
      then m <- fill_rows cols rows' ;; Some (r :: m)
      else None
  end.

(** ** Constants *)

(** [std::numeric_limits<double>::max()] *)
Definition DBL_MAX : float := 0x1.fffffffffffffp+1023.
Definition M_PI : float := 0x1.921fb54442d18p+1.
Definition M_SQRT1_2 : float := 0x1.6a09e667f3bcdp-1.

Definition NORM_PDF_C : float := sqrt (2 * M_PI).

(** ** The surrogate *)

(** Modelled from the spec: the surrogate [GaussianProcessRegressor] is not
    part of this file's source.  Its state is the noise parameter [alpha] and
    the data of the last fit; [Fit] refits in place and keeps [alpha];
    [Predict] depends on the fitted state and the query matrix only.  The
    kernel mathematics is the parameter [kernel_predict] below. *)
Record GaussianProcessRegressor := mkGPR {
  alpha_ : float;
  fitted_ : option (matrix * matrix)
}.

Definition GaussianProcessRegressor_new (alpha : float) : GaussianProcessRegressor :=
  mkGPR alpha None.

Definition Fit (g : GaussianProcessRegressor) (x_sample y_sample : matrix)
  : GaussianProcessRegressor :=
  mkGPR (alpha_ g) (Some (x_sample, y_sample)).

(** [LBFGSpp::LBFGSParam<double>], the two fields this code sets. *)
Record LBFGSParam := mkLBFGSParam {
  epsilon : float;
  max_iterations : Z
}.

(** [std::uniform_real_distribution<>(a, b)] *)
Record uniform_real_distribution := mkDist {
  dist_a : float;
  dist_b : float
}.

Definition GetDistributions (bounds : list (float * float))
  : list uniform_real_distribution :=
  map (fun bound => mkDist (fst bound) (snd bound)) bounds.

(** Modelled from the spec: the default of [n_restarts] is declared in the
    header, which is not part of this file's source; the spec gives 25. *)
Definition default_n_restarts : Z := 25.

(** ** The optimisation session *)

Section Session.

(** [std::exp] and [std::erfc] of the C library. *)
Variables exp erfc : float -> float.

(** The surrogate's predictive mean and standard deviation, one coefficient
    per row of the query matrix, from [alpha] and the fitted data. *)
Variable kernel_predict :
  float -> option (matrix * matrix) -> matrix -> vector * vector.

(** [GaussianProcessRegressor::ApproxFPrime(x, f, f0, grad)]: the finite
    difference gradient of [f] at [x], given [f0]. *)
Variable ApproxFPrime : vector -> (vector -> option float) -> float -> option vector.

(** [LBFGSpp::LBFGSSolver<double>::minimize(f, x, fx)]: from the objective
    (value and gradient) and the start point, the final point and the value
    the solver reports for it; [None] when the solver throws or the
    objective fails. *)
Variable minimize :
  LBFGSParam -> (vector -> option (float * vector)) -> vector -> option (vector * float).

(** [std::mt19937] and drawing from a distribution, [dist(gen_)]. *)
Variable mt19937 : Type.
Variable draw : uniform_real_distribution -> mt19937 -> float * mt19937.

Definition Predict (g : GaussianProcessRegressor) (x : matrix) : vector * vector :=
  kernel_predict (alpha_ g) (fitted_ g) x.

Record BayesianOptimization := mkSession {
  d_ : nat;
  bounds_ : list (float * float);
  xi_ : float;
  dists_ : list uniform_real_distribution;
  gen_ : mt19937;
  gpr_ : GaussianProcessRegressor;
  x_samples_ : list vector;
  y_samples_ : list vector
}.

(** The constructor; [gen0] is the state the header's initialiser gives the
    random source. *)
Definition BayesianOptimization_new
  (bounds : list (float * float)) (alpha xi : float) (gen0 : mt19937)
  : BayesianOptimization :=
  {| d_ := length bounds;
     bounds_ := bounds;
     xi_ := xi;
     dists_ := GetDistributions bounds;
     gen_ := gen0;
     gpr_ := GaussianProcessRegressor_new alpha;
     x_samples_ := [];
     y_samples_ := [] |}.

Definition set_gpr (s : BayesianOptimization) (g : GaussianProcessRegressor) :=
  mkSession (d_ s) (bounds_ s) (xi_ s) (dists_ s) (gen_ s) g (x_samples_ s) (y_samples_ s).

Definition set_gen (s : BayesianOptimization) (g : mt19937) :=
  mkSession (d_ s) (bounds_ s) (xi_ s) (dists_ s) g (gpr_ s) (x_samples_ s) (y_samples_ s).

(** [AddSample(x, y)], vector output *)
Definition AddSample (s : BayesianOptimization) (x y : vector) : BayesianOptimization :=
  mkSession (d_ s) (bounds_ s) (xi_ s) (dists_ s) (gen_ s) (gpr_ s)
            (x_samples_ s ++ [x]) (y_samples_ s ++ [y]).

(** [AddSample(x, y)], scalar output *)
Definition AddSample_scalar (s : BayesianOptimization) (x : vector) (y : float)
  : BayesianOptimization :=
  let y_v := [y] in
  AddSample s x y_v.

Definition Clear (s : BayesianOptimization) : BayesianOptimization :=
  mkSession (d_ s) (bounds_ s) (xi_ s) (dists_ s) (gen_ s) (gpr_ s) [] [].

(** *** CheckBounds *)

(** The loop of [CheckBounds] from index [i] on, [x] being the coefficients
    [x[i]], [x[i+1]], ...: the indices at which [bounds_] is read, in order,
    and the result; [None] when [bounds_] is read past its end. *)
Fixpoint CheckBounds_loop (bounds : list (float * float)) (i : nat) (x : vector)
  : list nat * option bool :=
  match x with
  | [] => ([], Some true)
  | xi :: x' =>
      match nth_error bounds i with
      | None => ([i], None)
      | Some bound =>
          if (xi <? fst bound) || (snd bound <? xi)
          then ([i], Some false)
          else let (reads, r) := CheckBounds_loop bounds (S i) x' in (i :: reads, r)
      end
  end.

Definition CheckBounds_reads (s : BayesianOptimization) (x : vector) : list nat :=
  fst (CheckBounds_loop (bounds_ s) 0 x).

Definition CheckBounds (s : BayesianOptimization) (x : vector) : option bool :=
  snd (CheckBounds_loop (bounds_ s) 0 x).

(** *** ExpectedImprovement *)

Definition pdf (x : float) : float := exp (- (x * x) / 2) / NORM_PDF_C.

Definition cdf (x : float) : float := 0.5 * erfc (- x * M_SQRT1_2).

Definition ExpectedImprovement (s : BayesianOptimization) (x x_sample : matrix)
  : option vector :=
  let (mu, sigma) := Predict (gpr_ s) x in
  let mu_sample := fst (Predict (gpr_ s) x_sample) in
  mu_sample_opt <- maxCoeff mu_sample ;;
  let imp := map (fun m => m - mu_sample_opt - xi_ s) mu in
  let z := cwise2 div imp sigma in
  let ei := cwise2 add (cwise2 mul imp (map cdf z)) (cwise2 mul sigma (map pdf z)) in
  let ei := cwise2 (fun sg e => if negb (sg =? 0) then e else 0) sigma ei in
  Some ei.

(** *** ProposeLocation *)

(** The lambda [f]: the negative acquisition function at [x]. *)
Definition neg_acquisition (s : BayesianOptimization) (x_sample : matrix) (x : vector)
  : option float :=
  ei <- ExpectedImprovement s [x] x_sample ;;
  e <- coeff ei 0 ;;
  Some (- e).

(** The lambda [min_obj]: value and gradient. *)
Definition min_obj (s : BayesianOptimization) (x_sample : matrix) (x : vector)
  : option (float * vector) :=
  let f := neg_acquisition s x_sample in
  inside <- CheckBounds s x ;;
  f0 <- (if inside then f x else Some DBL_MAX) ;;
  grad <- ApproxFPrime x f f0 ;;
  Some (f0, grad).

(** The inner loop [for j in 0 .. d_: x[j] = dists_[j](gen_)], from [j] on
    for [n] more rounds. *)
Fixpoint draw_start (dists : list uniform_real_distribution) (j n : nat)
  (x : vector) (gen : mt19937) : option (vector * mt19937) :=
  match n with
  | O => Some (x, gen)
  | S n' =>
      dist <- nth_error dists j ;;
      let (v, gen') := draw dist gen in
      x' <- set_coeff x j v ;;
      draw_start dists (S j) n' x' gen'
  end.

(** [param.epsilon = 1e-5; param.max_iterations = 100] *)
Definition solver_param : LBFGSParam := mkLBFGSParam 0x1.4f8b588e368f1p-17 100.

(** The restart loop, [n] rounds from the state [(x_next, fx_min, gen)]. *)
Fixpoint restart_loop (s : BayesianOptimization) (x_sample : matrix) (n : nat)
  (x_next : vector) (fx_min : float) (gen : mt19937) : option (vector * mt19937) :=
  match n with
  | O => Some (x_next, gen)
  | S n' =>
      '(x0, gen') <- draw_start (dists_ s) 0 (d_ s) (Zero (d_ s)) gen ;;
      '(x, fx) <- minimize solver_param (min_obj s x_sample) x0 ;;
      if fx <? fx_min
      then restart_loop s x_sample n' x fx gen'
      else restart_loop s x_sample n' x_next fx_min gen'
  end.

Definition ProposeLocation (s : BayesianOptimization) (x_sample y_sample : matrix)
  (n_restarts : Z) : option (vector * BayesianOptimization) :=
  let x_next := Zero (d_ s) in
  let fx_min := DBL_MAX in
  '(x_next, gen) <- restart_loop s x_sample (Z.to_nat n_restarts) x_next fx_min (gen_ s) ;;
  Some (x_next, set_gen s gen).

(** *** NextSample *)

Definition NextSample (s : BayesianOptimization) : option (vector * BayesianOptimization) :=
  x_sample <- fill_rows (d_ s) (x_samples_ s) ;;
  y_sample <- fill_rows 1 (y_samples_ s) ;;
  let s := set_gpr s (Fit (gpr_ s) x_sample y_sample) in
  ProposeLocation s x_sample y_sample default_n_restarts.

End Session.

Arguments mkSession {mt19937}.
Arguments d_ {mt19937}.
Arguments bounds_ {mt19937}.
Arguments xi_ {mt19937}.
Arguments dists_ {mt19937}.
Arguments gen_ {mt19937}.
Arguments gpr_ {mt19937}.
Arguments x_samples_ {mt19937}.
Arguments y_samples_ {mt19937}.
Arguments BayesianOptimization_new {mt19937}.
Arguments set_gpr {mt19937}.
Arguments set_gen {mt19937}.
Arguments AddSample {mt19937}.
Arguments AddSample_scalar {mt19937}.
Arguments Clear {mt19937}.
Arguments CheckBounds {mt19937}.
Arguments CheckBounds_reads {mt19937}.
Arguments ExpectedImprovement exp erfc kernel_predict {mt19937}.
Arguments neg_acquisition exp erfc kernel_predict {mt19937}.
Arguments min_obj exp erfc kernel_predict ApproxFPrime {mt19937}.
Arguments draw_start {mt19937}.
Arguments restart_loop exp erfc kernel_predict ApproxFPrime minimize {mt19937}.
Arguments ProposeLocation exp erfc kernel_predict ApproxFPrime minimize {mt19937}.
Arguments NextSample exp erfc kernel_predict ApproxFPrime minimize {mt19937}.

(** ** Definitions the properties are stated with *)

(** A coordinate is strictly outside its bound. *)
Definition outside (bound : float * float) (xi : float) : bool :=
  (xi <? fst bound) || (snd bound <? xi).

(** A coordinate is inside its bound, endpoints included. *)
Definition inside (bound : float * float) (xi : float) : bool :=
  (fst bound <=? xi) && (xi <=? snd bound).

(** Every coordinate of [x] is inside the bound of its dimension. *)
Definition within_bounds (bounds : list (float * float)) (x : vector) : Prop :=
  forall i xi bound,
    nth_error x i = Some xi -> nth_error bounds i = Some bound -> inside bound xi = true.

(** A bound is well formed when [low <= high]. *)
Definition bound_ok (bound : float * float) : bool := fst bound <=? snd bound.

Section Formula.

Variables exp erfc : float -> float.

(** The standard normal density and distribution function as the spec writes
    them; the quotient by [sqrt 2] is the product with [M_SQRT1_2]. *)
Definition normal_density (z : float) : float :=
  exp (- (z * z) / 2) / sqrt (2 * M_PI).

Definition normal_distribution (z : float) : float :=
  0.5 * erfc (- z * M_SQRT1_2).

(** Expected improvement at one query point: predictive mean [mu], standard
    deviation [sigma], threshold [mu_sample_opt], exploration [xi]. *)
Definition expected_improvement_formula (mu_sample_opt xi mu sigma : float) : float :=
  let imp := mu - mu_sample_opt - xi in
  let z := imp / sigma in
  imp * normal_distribution z + sigma * normal_density z.

(** The acquisition value with the threshold given from outside. *)
Definition acquisition_with_threshold (threshold xi mu sigma : float) : float :=
  if negb (sigma =? 0)
  then expected_improvement_formula threshold xi mu sigma
  else 0.

End Formula.

Section Restarts.

Variable minimize :
  LBFGSParam -> (vector -> option (float * vector)) -> vector -> option (vector * float).
Variable mt19937 : Type.
Variable draw : uniform_real_distribution -> mt19937 -> float * mt19937.

(** What the restarts produce, in order: the solver's final point and value
    of each, and the state of the random source after the last. *)
Fixpoint restart_runs (objective : vector -> option (float * vector))
  (dists : list uniform_real_distribution) (d n : nat) (gen : mt19937)
  : option (list (vector * float) * mt19937) :=
  match n with
  | O => Some ([], gen)
  | S n' =>
      '(x0, gen') <- draw_start draw dists 0 d (Zero d) gen ;;
      r <- minimize solver_param objective x0 ;;
      '(rs, gen'') <- restart_runs objective dists d n' gen' ;;
      Some (r :: rs, gen'')
  end.

End Restarts.

Arguments restart_runs minimize {mt19937}.

(** ** The C library's [exp] and [erfc], computed

    Both functions are evaluated in fixed point with 192 fractional bits and
    the result is rounded to the nearest double. *)

Module Libm.
Local Open Scope Z_scope.

(** Fixed point with [F] fractional bits. *)
Definition F : Z := 192.
Definition one : Z := Z.shiftl 1 F.
Definition mul (a b : Z) : Z := Z.shiftr (a * b) F.
Definition div (a b : Z) : Z := Z.shiftl a F / b.

(** The value [a * 2^e], rounded to the nearest double. *)
Definition to_float (a e : Z) : float :=
  SF2Prim (binary_normalize prec emax a e false).

(** [sum_{k < n} (-1)^k c^(2k+1) / (2k+1)] from term [k] on: the series of
    arctan; with the signs dropped, of artanh. *)
Fixpoint odd_series (alternate : bool) (c2 : Z) (n : nat) (k : Z) (power acc : Z) : Z :=
  match n with
  | O => acc
  | S n' =>
      let power' := mul power c2 in
      let power' := if alternate then - power' else power' in
      odd_series alternate c2 n' (k + 2) power' (acc + power' / k)
  end.

Definition arctan_inv (q : Z) (n : nat) : Z :=
  odd_series true (one / (q * q)) n 3 (one / q) (one / q).

Definition artanh_inv (q : Z) (n : nat) : Z :=
  odd_series false (one / (q * q)) n 3 (one / q) (one / q).

(** [ln 2 = 2 artanh (1/3)], [pi = 16 arctan (1/5) - 4 arctan (1/239)]. *)
Definition ln2 : Z := Eval vm_compute in 2 * artanh_inv 3 70.
Definition pi : Z := Eval vm_compute in 16 * arctan_inv 5 50 - 4 * arctan_inv 239 16.
Definition sqrt_pi : Z := Eval vm_compute in Z.sqrt (Z.shiftl pi F).

(** [sum_{k <= n} r^k / k!] *)
Fixpoint exp_series (r : Z) (n : nat) (k : Z) (term acc : Z) : Z :=
  match n with
  | O => acc
  | S n' =>
      let term' := mul term r / k in
      exp_series r n' (k + 1) term' (acc + term')
  end.

(** [exp x = m * 2^k] for [x] in fixed point: [x = k ln 2 + r]. *)
Definition exp_parts (x : Z) : Z * Z :=
  let k := (2 * x + ln2) / (2 * ln2) in
  let r := x - k * ln2 in
  (exp_series r 45 1 one one, k).

(** [sum_k (-1)^k x^(2k+1) / (k! (2k+1))], times [2 / sqrt pi]: erf. *)
Fixpoint erf_series (x2 : Z) (n : nat) (k : Z) (term acc : Z) : Z :=
  match n with
  | O => acc
  | S n' =>
      let term' := - (mul term x2 / k) in
      erf_series x2 n' (k + 1) term' (acc + term' / (2 * k + 1))
  end.

Definition erf_small (x : Z) : Z :=
  div (2 * erf_series (mul x x) 110 1 x x) sqrt_pi.

(** The continued fraction [x + (1/2)/(x + 1/(x + (3/2)/(x + ...)))] of
    [exp (-x^2) / (sqrt pi * erfc x)], from level [k] down to 1. *)
Fixpoint erfc_fraction (x : Z) (n : nat) (k : Z) (acc : Z) : Z :=
  match n with
  | O => acc
  | S n' => erfc_fraction x n' (k - 1) (x + div (k * one / 2) acc)
  end.

(** A double as a fixed-point number. *)
Definition of_float (x : float) : option Z :=
  match Prim2SF x with
  | S754_zero _ => Some 0
  | S754_finite s m e => Some (cond_Zopp s (Z.shiftl (Zpos m) (e + F)))
  | _ => None
  end.

Definition exp (x : float) : float :=
  match of_float x with
  | Some a =>
      if 1024 * one <? a then infinity
      else if a <? - (1100 * one) then 0%float
      else let (m, k) := exp_parts a in to_float m (k - F)
  | None => if (x <? 0)%float then 0%float else x
  end.

Definition erfc_pos (a : Z) : Z * Z :=
  if a <? 3 * one
  then (one - erf_small a, 0)
  else
    let (m, k) := exp_parts (- mul a a) in
    (div (div m sqrt_pi) (erfc_fraction a 150 150 a), k).

Definition erfc (x : float) : float :=
  match of_float x with
  | Some a =>
      if 30 * one <? a then 0%float
      else if a <? - (30 * one) then 2%float
      else if a <? 0
      then let (m, k) := erfc_pos (- a) in
           to_float (2 * one - Z.shiftl m k) (- F)
      else let (m, k) := erfc_pos a in to_float m (k - F)
  | None => if (x <? 0)%float then 2%float else if (0 <? x)%float then 0%float else x
  end.

End Libm.

(** ** One concrete environment

    A small, executable choice of what the session takes from outside: the
    C library's functions as computed above, a surrogate, a finite-difference
    gradient, a descent solver and a random source.  The properties below
    hold for every environment; this one is where they are run. *)

Module Concrete.

Set Warnings "-inexact-float".

Definition exp : float -> float := Libm.exp.
Definition erfc : float -> float := Libm.erfc.

(** The surrogate: at a fitted input the fitted output with deviation
    [alpha]; elsewhere the mean of the fitted outputs with deviation 1. *)
Fixpoint vector_eqb (u v : vector) : bool :=
  match u, v with
  | [], [] => true
  | a :: u', b :: v' => (a =? b) && vector_eqb u' v'
  | _, _ => false
  end.

Fixpoint fitted_output (x_sample y_sample : matrix) (x : vector) : option float :=
  match x_sample, y_sample with
  | xr :: x_sample', yr :: y_sample' =>
      if vector_eqb xr x then Some (hd 0 yr) else fitted_output x_sample' y_sample' x
  | _, _ => None
  end.

Definition mean_output (y_sample : matrix) : float :=
  fold_left (fun acc yr => acc + hd 0 yr) y_sample 0
  / of_uint63 (Uint63.of_Z (Z.of_nat (length y_sample))).

Definition predict_row (alpha : float) (fitted : option (matrix * matrix)) (x : vector)
  : float * float :=
  match fitted with
  | None => (0, 1)
  | Some (x_sample, y_sample) =>
      match fitted_output x_sample y_sample x with
      | Some y => (y, alpha)
      | None => (mean_output y_sample, 1)
      end
  end.

Definition kernel_predict (alpha : float) (fitted : option (matrix * matrix)) (x : matrix)
  : vector * vector :=
  let rows := map (predict_row alpha fitted) x in
  (map fst rows, map snd rows).

(** Forward differences with step [1e-8]. *)
Definition fd_step : float := 1e-8.

Fixpoint ApproxFPrime_loop (f : vector -> option float) (f0 : float) (x : vector)
  (k n : nat) : option vector :=
  match n with
  | O => Some []
  | S n' =>
      xk <- coeff x k ;;
      x' <- set_coeff x k (xk + fd_step) ;;
      fk <- f x' ;;
      rest <- ApproxFPrime_loop f f0 x (S k) n' ;;
      Some ((fk - f0) / fd_step :: rest)
  end.

Definition ApproxFPrime (x : vector) (f : vector -> option float) (f0 : float)
  : option vector :=
  ApproxFPrime_loop f f0 x 0 (length x).

(** A descent solver: it stops when the gradient is small against the
    point, or after [max_iterations] steps along the negative gradient. *)
Definition norm (v : vector) : float :=
  sqrt (fold_left (fun acc a => acc + a * a) v 0).

Fixpoint descend (eps : float) (objective : vector -> option (float * vector))
  (k : nat) (x : vector) (fx : float) (grad : vector) : option (vector * float) :=
  match k with
  | O => Some (x, fx)
  | S k' =>
      let xnorm := norm x in
      if norm grad <=? eps * (if xnorm <? 1 then 1 else xnorm)
      then Some (x, fx)
      else
        let x' := cwise2 sub x grad in
        '(fx', grad') <- objective x' ;;
        descend eps objective k' x' fx' grad'
  end.

Definition minimize (param : LBFGSParam)
  (objective : vector -> option (float * vector)) (x0 : vector)
  : option (vector * float) :=
  '(fx, grad) <- objective x0 ;;
  descend (epsilon param) objective (Z.to_nat (max_iterations param)) x0 fx grad.

(** The random source: a linear congruential generator on 31 bits. *)
Definition mt19937 : Type := Z.

Definition draw (dist : uniform_real_distribution) (gen : mt19937) : float * mt19937 :=
  let gen' := ((1103515245 * gen + 12345) mod 2147483648)%Z in
  let u := of_uint63 (Uint63.of_Z gen') / 2147483648 in
  (dist_a dist + (dist_b dist - dist_a dist) * u, gen').

(** The spec's scenario: one dimension bounded by [0, 1], [alpha = 1e-6],
    [xi = 0.01], samples [0 -> -1], [0.5 -> 2], [1 -> -0.5]. *)
Definition session0 (gen0 : mt19937) : BayesianOptimization mt19937 :=
  BayesianOptimization_new [(0, 1)] 1e-6 0.01 gen0.

Definition session3 (gen0 : mt19937) : BayesianOptimization mt19937 :=
  AddSample_scalar
    (AddSample_scalar (AddSample_scalar (session0 gen0) [0] (-1)) [0.5] 2) [1] (-0.5).

(** A session with one sample. *)
Definition session1 (gen0 : mt19937) : BayesianOptimization mt19937 :=
  AddSample_scalar (session0 gen0) [0.5] 2.

(** The state [NextSample] leaves [session1 42] in: the surrogate fitted to
    the one sample and the random source 25 draws on. *)
Definition gen_used : mt19937 := 879663491%Z.

Definition session_used : BayesianOptimization mt19937 :=
  set_gen (set_gpr (session1 42%Z) (Fit (gpr_ (session1 42%Z)) [[0.5]] [[2]])) gen_used.

(** The three samples of the scenario, as [AddSample] takes them. *)
Definition samples3 : list (vector * vector) :=
  [([0], [-1]); ([0.5], [2]); ([1], [-0.5])].

(** The fitted session of the scenario and its sample matrix. *)
Definition x_sample3 : matrix := [[0]; [0.5]; [1]].
Definition y_sample3 : matrix := [[-1]; [2]; [-0.5]].

Definition fitted3 : BayesianOptimization mt19937 :=
  set_gpr (session3 42%Z) (Fit (gpr_ (session3 42%Z)) x_sample3 y_sample3).

(** One dimension bounded by [1, 2] and one sample whose output is not a
    number. *)
Definition session_nan : BayesianOptimization mt19937 :=
  AddSample_scalar (BayesianOptimization_new [(1, 2)] 1e-6 0.01 42%Z) [1.5] nan.

(** Two samples at one input: the fitted mean there is the first output. *)
Definition fitted_twice : BayesianOptimization mt19937 :=
  let s := AddSample_scalar (AddSample_scalar (session0 42%Z) [0.5] 1) [0.5] 5 in
  set_gpr s (Fit (gpr_ s) [[0.5]; [0.5]] [[1]; [5]]).

(** Two samples, [0 -> 0] and [1 -> -76.8], and [xi = 0]: away from the
    samples the predictive mean is [-38.4] and the deviation 1; the greatest
    fitted mean is 0. *)
Definition fitted_tail : BayesianOptimization mt19937 :=
  let s := AddSample_scalar
             (AddSample_scalar (BayesianOptimization_new [(0, 1)] 1e-6 0 42%Z) [0] 0)
             [1] (-76.8) in
  set_gpr s (Fit (gpr_ s) [[0]; [1]] [[0]; [-76.8]]).

(** A random source that keeps its draws within [[a, b]], as
    [std::uniform_real_distribution] does: the draw above, clamped. *)
Definition clamp (a b v : float) : float :=
  if a <=? v then (if v <=? b then v else b) else a.

Definition draw_clamped (dist : uniform_real_distribution) (gen : mt19937)
  : float * mt19937 :=
  let (v, gen') := draw dist gen in
  (clamp (dist_a dist) (dist_b dist) v, gen').

End Concrete.

(** ** Sessions reached through the interface *)

Section Reach.

Variables exp erfc : float -> float.
Variable kernel_predict :
  float -> option (matrix * matrix) -> matrix -> vector * vector.
Variable ApproxFPrime : vector -> (vector -> option float) -> float -> option vector.
Variable minimize :
  LBFGSParam -> (vector -> option (float * vector)) -> vector -> option (vector * float).
Variable mt19937 : Type.
Variable draw : uniform_real_distribution -> mt19937 -> float * mt19937.

(** The sessions a caller can hold: constructed with [bounds], [alpha], [xi]
    and the random source in state [gen0], then used through [AddSample],
    [Clear] and [NextSample]. *)
Inductive reachable (bounds : list (float * float)) (alpha xi : float) (gen0 : mt19937)
  : BayesianOptimization mt19937 -> Prop :=
| reach_new :
    reachable bounds alpha xi gen0 (BayesianOptimization_new bounds alpha xi gen0)
| reach_AddSample s x y :
    reachable bounds alpha xi gen0 s ->
    reachable bounds alpha xi gen0 (AddSample s x y)
| reach_Clear s :
    reachable bounds alpha xi gen0 s ->
    reachable bounds alpha xi gen0 (Clear s)
| reach_NextSample s x s' :
    reachable bounds alpha xi gen0 s ->
    NextSample exp erfc kernel_predict ApproxFPrime minimize draw s = Some (x, s') ->
    reachable bounds alpha xi gen0 s'.

(** A sequence of [AddSample] calls. *)
Definition AddSamples (s : BayesianOptimization mt19937) (samples : list (vector * vector))
  : BayesianOptimization mt19937 :=
  fold_left (fun s sample => AddSample s (fst sample) (snd sample)) samples s.

End Reach.

Arguments reachable exp erfc kernel_predict ApproxFPrime minimize {mt19937}.
Arguments AddSamples {mt19937}.

Section Draws.

Variable mt19937 : Type.
Variable draw : uniform_real_distribution -> mt19937 -> float * mt19937.

(** The random source after one draw from each distribution, in order. *)
Definition draw_all (dists : list uniform_real_distribution) (gen : mt19937) : mt19937 :=
  fold_left (fun g dist => snd (draw dist g)) dists gen.

(** The random source after [n] rounds of [draw_all]. *)
Fixpoint advance (dists : list uniform_real_distribution) (n : nat) (gen : mt19937)
  : mt19937 :=
  match n with
  | O => gen
  | S n' => advance dists n' (draw_all dists gen)
  end.

End Draws.

Arguments draw_all {mt19937}.
Arguments advance {mt19937}.

(** One bound lies within another. *)
Definition bound_within (inner outer : float * float) : Prop :=
  (fst outer <=? fst inner) = true /\ (snd inner <=? snd outer) = true.

(** The lock-step reading of [CheckBounds]: the coefficients against the
    bounds from the current index on. *)
Fixpoint check_zip (bounds : list (float * float)) (x : vector) {struct x}
  : option bool :=
  match x, bounds with
  | [], _ => Some true
  | _ :: _, [] => None
  | xi :: x', bound :: bounds' =>
      if outside bound xi then Some false else check_zip bounds' x'
  end.

(** No coordinate that has a bound is strictly outside it. *)
Definition feasible_prefix (bounds : list (float * float)) (x : vector) : bool :=
  forallb (fun p => negb (outside (snd p) (fst p))) (combine x bounds).

(** The best run so far, [(x_next, fx_min)], after one more run. *)
Definition keep_best (best run : vector * float) : vector * float :=
  if snd run <? snd best then run else best.

Definition best_run (runs : list (vector * float)) (init : vector * float)
  : vector * float :=
  fold_left keep_best runs init.

(** ** Order facts on binary64 values *)

Module FloatOrder.

Definition cmp (a b : float) : option comparison :=
  SFcompare (Prim2SF a) (Prim2SF b).

Lemma ltb_cmp a b : (a <? b) = true <-> cmp a b = Some Lt.
Proof.
  rewrite ltb_spec. unfold SFltb, cmp.
  destruct (SFcompare _ _) as [[]|]; split; congruence.
Qed.

Lemma leb_cmp a b :
  (a <=? b) = true <-> cmp a b = Some Lt \/ cmp a b = Some Eq.
Proof.
  rewrite leb_spec. unfold SFleb, cmp.
  destruct (SFcompare _ _) as [[]|]; split; try tauto; try congruence;
    intros [H|H]; congruence.
Qed.

Lemma eqb_cmp a b : (a =? b) = true <-> cmp a b = Some Eq.
Proof.
  rewrite eqb_spec. unfold SFeqb, cmp.
  destruct (SFcompare _ _) as [[]|]; split; congruence.
Qed.

Ltac cases_compare :=
  repeat match goal with
  | |- context [Z.compare ?x ?y] => destruct (Z.compare_spec x y)
  | |- context [Pos.compare_cont Eq ?x ?y] =>
      change (Pos.compare_cont Eq x y) with (Pos.compare x y);
      destruct (Pos.compare_spec x y)
  | H : context [Z.compare ?x ?y] |- _ => destruct (Z.compare_spec x y)
  | H : context [Pos.compare_cont Eq ?x ?y] |- _ =>
      change (Pos.compare_cont Eq x y) with (Pos.compare x y) in H;
      destruct (Pos.compare_spec x y)
  end.

Lemma SFcompare_antisym x y :
  SFcompare y x = option_map CompOpp (SFcompare x y).
Proof.
  destruct x as [[]|[]| |[] mx ex], y as [[]|[]| |[] my ey]; simpl; try reflexivity;
    cases_compare; simpl; try reflexivity; subst; try lia.
Qed.

Lemma SFcompare_trans_lt x y z :
  SFcompare x y = Some Lt -> SFcompare y z = Some Lt -> SFcompare x z = Some Lt.
Proof.
  destruct x as [[]|[]| |[] mx ex], y as [[]|[]| |[] my ey], z as [[]|[]| |[] mz ez];
    simpl; try congruence; intros H1 H2;
    cases_compare; simpl in *; subst; try congruence; try lia.
Qed.

Lemma SFcompare_trans_lt_eq x y z :
  SFcompare x y = Some Lt -> SFcompare y z = Some Eq -> SFcompare x z = Some Lt.
Proof.
  destruct x as [[]|[]| |[] mx ex], y as [[]|[]| |[] my ey], z as [[]|[]| |[] mz ez];
    simpl; try congruence; intros H1 H2;
    cases_compare; simpl in *; subst; try congruence; try lia.
Qed.

Lemma SFcompare_trans_eq_lt x y z :
  SFcompare x y = Some Eq -> SFcompare y z = Some Lt -> SFcompare x z = Some Lt.
Proof.
  destruct x as [[]|[]| |[] mx ex], y as [[]|[]| |[] my ey], z as [[]|[]| |[] mz ez];
    simpl; try congruence; intros H1 H2;
    cases_compare; simpl in *; subst; try congruence; try lia.
Qed.

Lemma SFcompare_trans_eq x y z :
  SFcompare x y = Some Eq -> SFcompare y z = Some Eq -> SFcompare x z = Some Eq.
Proof.
  destruct x as [[]|[]| |[] mx ex], y as [[]|[]| |[] my ey], z as [[]|[]| |[] mz ez];
    simpl; try congruence; intros H1 H2;
    cases_compare; simpl in *; subst; try congruence; try lia.
Qed.

End FloatOrder.

(** Facts on the primitive comparisons, through their specification. *)

Module FloatFacts.
Import FloatOrder.

Lemma ltb_leb_false a b : (a <=? b) = true -> (b <? a) = false.
Proof.
  intros H. apply leb_cmp in H. apply not_true_is_false. intros L.
  apply ltb_cmp in L. unfold cmp in *.
  rewrite (SFcompare_antisym (Prim2SF a) (Prim2SF b)) in L.
  destruct H as [H|H]; rewrite H in L; discriminate.
Qed.

Lemma ltb_irrefl a : (a <? a) = false.
Proof.
  apply not_true_is_false. intros L. apply ltb_cmp in L. unfold cmp in L.
  pose proof (SFcompare_antisym (Prim2SF a) (Prim2SF a)) as A.
  rewrite L in A. discriminate.
Qed.

Lemma ltb_asym a b : (a <? b) = true -> (b <? a) = false.
Proof.
  intros H. apply not_true_is_false. intros L.
  apply ltb_cmp in H, L. unfold cmp in *.
  rewrite (SFcompare_antisym (Prim2SF a) (Prim2SF b)), H in L. discriminate.
Qed.

Lemma ltb_leb a b : (a <? b) = true -> (a <=? b) = true.
Proof. intros H. apply leb_cmp. left. now apply ltb_cmp. Qed.

Lemma ltb_trans a b c : (a <? b) = true -> (b <? c) = true -> (a <? c) = true.
Proof.
  rewrite !ltb_cmp. unfold cmp. apply SFcompare_trans_lt.
Qed.

Lemma ltb_leb_trans a b c : (a <? b) = true -> (b <=? c) = true -> (a <? c) = true.
Proof.
  rewrite !ltb_cmp, leb_cmp. unfold cmp. intros H [L|E].
  - eapply SFcompare_trans_lt; eassumption.
  - eapply SFcompare_trans_lt_eq; eassumption.
Qed.

Lemma leb_ltb_trans a b c : (a <=? b) = true -> (b <? c) = true -> (a <? c) = true.
Proof.
  rewrite !ltb_cmp, leb_cmp. unfold cmp. intros [L|E] H.
  - eapply SFcompare_trans_lt; eassumption.
  - eapply SFcompare_trans_eq_lt; eassumption.
Qed.

Lemma leb_trans a b c : (a <=? b) = true -> (b <=? c) = true -> (a <=? c) = true.
Proof.
  intros H1 H2. apply leb_cmp in H1 as H1'. destruct H1' as [L|E].
  - apply ltb_leb. apply ltb_leb_trans with b; [apply ltb_cmp; exact L|exact H2].
  - apply leb_cmp in H2. apply leb_cmp. unfold cmp in *. destruct H2 as [L|E'].
    + left. eapply SFcompare_trans_eq_lt; eassumption.
    + right. eapply SFcompare_trans_eq; eassumption.
Qed.

Lemma is_nan_cmp a : is_nan a = false <-> cmp a a = Some Eq.
Proof.
  unfold is_nan. rewrite negb_false_iff. apply eqb_cmp.
Qed.

Lemma SFcompare_total x y :
  SFcompare x x = Some Eq -> SFcompare y y = Some Eq -> SFcompare x y <> None.
Proof.
  destruct x as [[]|[]| |[] mx ex], y as [[]|[]| |[] my ey]; simpl; congruence.
Qed.

(** Two numbers are always comparable. *)
Lemma not_ltb_leb a b :
  is_nan a = false -> is_nan b = false -> (b <? a) = false -> (a <=? b) = true.
Proof.
  rewrite !is_nan_cmp. unfold cmp. intros Ha Hb H.
  apply leb_cmp. unfold cmp.
  pose proof (SFcompare_total _ _ Ha Hb) as T.
  assert (L : cmp b a <> Some Lt).
  { intros L. apply ltb_cmp in L. congruence. }
  unfold cmp in L. rewrite (SFcompare_antisym (Prim2SF a) (Prim2SF b)) in L.
  destruct (SFcompare (Prim2SF a) (Prim2SF b)) as [[]|]; simpl in L; auto; congruence.
Qed.

Lemma leb_refl a : is_nan a = false -> (a <=? a) = true.
Proof. intros H. apply leb_cmp. right. now apply is_nan_cmp. Qed.

Lemma ltb_not_nan a b : (a <? b) = true -> is_nan a = false /\ is_nan b = false.
Proof.
  rewrite ltb_cmp, !is_nan_cmp. unfold cmp.
  destruct (Prim2SF a) as [[]|[]| |[] mx ex], (Prim2SF b) as [[]|[]| |[] my ey];
    simpl; try congruence; intros _; rewrite ?Z.compare_refl;
    change (Pos.compare_cont Eq ?p ?p) with (Pos.compare p p);
    rewrite ?Pos.compare_refl; auto.
Qed.

Lemma leb_not_nan a b : (a <=? b) = true -> is_nan a = false /\ is_nan b = false.
Proof.
  rewrite leb_cmp, !is_nan_cmp. unfold cmp.
  destruct (Prim2SF a) as [[]|[]| |[] mx ex], (Prim2SF b) as [[]|[]| |[] my ey];
    simpl; try (intros [?|?]; congruence); intros _; rewrite ?Z.compare_refl;
    change (Pos.compare_cont Eq ?p ?p) with (Pos.compare p p);
    rewrite ?Pos.compare_refl; auto.
Qed.

Lemma ltb_neq a b : (a <? b) = true -> (b =? a) = false.
Proof.
  intros H. apply not_true_is_false. intros E.
  apply ltb_cmp in H. apply eqb_cmp in E. unfold cmp in *.
  rewrite (SFcompare_antisym (Prim2SF a) (Prim2SF b)), H in E. discriminate.
Qed.

End FloatFacts.

(** Signs: a value that is not below zero stays so under product, sum and
    quotient. *)

Module FloatSign.

Definition not_negative (x : spec_float) : bool :=
  match x with
  | S754_infinity true | S754_finite true _ _ => false
  | _ => true
  end.

Lemma ltb_zero a : (a <? 0) = false <-> not_negative (Prim2SF a) = true.
Proof.
  rewrite ltb_spec. replace (Prim2SF 0) with (S754_zero false) by reflexivity.
  destruct (Prim2SF a) as [[]|[]| |[] m e]; simpl; split; intros H;
    try reflexivity; try discriminate.
Qed.

Lemma binary_round_aux_sign mx ex lx :
  not_negative (binary_round_aux prec emax false mx ex lx) = true.
Proof.
  unfold binary_round_aux.
  destruct (shr_fexp prec emax mx ex lx) as [mrs' e'].
  destruct (shr_fexp prec emax _ e' loc_Exact) as [mrs'' e''].
  destruct (shr_m mrs''); [reflexivity| |reflexivity].
  destruct (Z.leb e'' _); reflexivity.
Qed.

Lemma binary_round_sign m e : not_negative (binary_round prec emax false m e) = true.
Proof.
  unfold binary_round. destruct (shl_align _ _ _) as [mz ez].
  apply binary_round_aux_sign.
Qed.

Lemma SFmul_sign x y :
  not_negative x = true -> not_negative y = true ->
  not_negative (SFmul prec emax x y) = true.
Proof.
  destruct x as [[]|[]| |[] mx ex], y as [[]|[]| |[] my ey]; simpl;
    try reflexivity; try discriminate; intros _ _.
  apply binary_round_aux_sign.
Qed.

Lemma SFadd_sign x y :
  not_negative x = true -> not_negative y = true ->
  not_negative (SFadd prec emax x y) = true.
Proof.
  destruct x as [[]|[]| |[] mx ex], y as [[]|[]| |[] my ey]; simpl;
    try reflexivity; try discriminate; intros _ _.
  apply binary_round_sign.
Qed.


Lemma mul_not_negative a b :
  (a <? 0) = false -> (b <? 0) = false -> (a * b <? 0) = false.
Proof.
  rewrite !ltb_zero, mul_spec. apply SFmul_sign.
Qed.

Lemma add_not_negative a b :
  (a <? 0) = false -> (b <? 0) = false -> (a + b <? 0) = false.
Proof.
  rewrite !ltb_zero, add_spec. apply SFadd_sign.
Qed.


Definition positive_value (x : spec_float) : bool :=
  match x with
  | S754_infinity false | S754_finite false _ _ => true
  | _ => false
  end.

Lemma zero_ltb b : (0 <? b) = true <-> positive_value (Prim2SF b) = true.
Proof.
  rewrite ltb_spec. replace (Prim2SF 0) with (S754_zero false) by reflexivity.
  destruct (Prim2SF b) as [[]|[]| |[] m e]; simpl; split; intros H;
    try reflexivity; try discriminate.
Qed.

Lemma SFdiv_sign x y :
  not_negative x = true -> positive_value y = true ->
  not_negative (SFdiv prec emax x y) = true.
Proof.
  destruct x as [[]|[]| |[] mx ex], y as [[]|[]| |[] my ey];
    cbv beta iota delta [SFdiv not_negative positive_value xorb];
    try reflexivity; try discriminate; intros _ _.
  destruct (SFdiv_core_binary prec emax (Zpos mx) ex (Zpos my) ey) as [[mz ez] lz].
  apply binary_round_aux_sign.
Qed.

Lemma div_not_negative a b :
  (a <? 0) = false -> (0 <? b) = true -> (a / b <? 0) = false.
Proof.
  rewrite !ltb_zero, zero_ltb, div_spec. apply SFdiv_sign.
Qed.

Lemma positive_not_negative a : (0 <? a) = true -> (a <? 0) = false.
Proof.
  rewrite ltb_zero, zero_ltb.
  destruct (Prim2SF a) as [[]|[]| |[] m e]; simpl; congruence.
Qed.

End FloatSign.

(** The sign of a sum: through the specification of binary64 addition, the
    exact sum of the mantissas aligned on the smaller exponent, rounded. *)

Module FloatAdd.
Import FloatSign.

Local Open Scope Z_scope.

Lemma fexp_eq e : fexp prec emax e = Z.max (e - 53) (-1074).
Proof. reflexivity. Qed.

Lemma digits2_pos_size m : digits2_pos m = Pos.size m.
Proof. induction m as [m IH|m IH|]; simpl; congruence. Qed.

Lemma digits2_pos_bounds m :
  2 ^ (Zpos (digits2_pos m) - 1) <= Zpos m < 2 ^ Zpos (digits2_pos m).
Proof.
  rewrite digits2_pos_size. split.
  - pose proof (Pos.size_le m) as H.
    apply Pos2Z.pos_le_pos in H. rewrite Pos2Z.inj_pow in H.
    replace (Zpos (Pos.size m)) with (Z.succ (Zpos (Pos.size m) - 1)) in H by lia.
    rewrite Z.pow_succ_r in H by lia. lia.
  - pose proof (Pos.size_gt m) as H.
    apply Pos2Z.pos_lt_pos in H. now rewrite Pos2Z.inj_pow in H.
Qed.

Lemma iter_xO m d : Zpos (Pos.iter xO m d) = Zpos m * 2 ^ Zpos d.
Proof.
  induction d as [|d IH] using Pos.peano_ind.
  - simpl. lia.
  - rewrite Pos.iter_succ, Pos2Z.inj_succ, Z.pow_succ_r by lia.
    rewrite Pos2Z.inj_xO, IH. lia.
Qed.

Lemma shl_align_value mx ex ez :
  ez <= ex -> Zpos (fst (shl_align mx ex ez)) = Zpos mx * 2 ^ (ex - ez).
Proof.
  intros H. unfold shl_align.
  destruct (ez - ex) as [|d|d] eqn:E; cbn [fst].
  - replace (ex - ez) with 0 by lia. rewrite Z.pow_0_r. lia.
  - lia.
  - rewrite iter_xO. f_equal. f_equal. lia.
Qed.


Lemma canonical_exponent m e :
  canonical_mantissa prec emax m e = true ->
  e = Z.max (Zpos (digits2_pos m) + e - 53) (-1074).
Proof.
  unfold canonical_mantissa. rewrite fexp_eq. intros H.
  apply Z.eqb_eq in H. lia.
Qed.

(** Two canonical numbers compare as their mantissas aligned on the smaller
    exponent. *)
Lemma aligned_compare mx ex my ey :
  canonical_mantissa prec emax mx ex = true ->
  canonical_mantissa prec emax my ey = true ->
  (Zpos (fst (shl_align mx ex (Z.min ex ey)))
     ?= Zpos (fst (shl_align my ey (Z.min ex ey)))) =
  match ex ?= ey with
  | Lt => Lt
  | Gt => Gt
  | Eq => (mx ?= my)%positive
  end.
Proof.
  intros Cx Cy. apply canonical_exponent in Cx, Cy.
  rewrite !shl_align_value by lia.
  pose proof (digits2_pos_bounds mx) as [Lx Ux].
  pose proof (digits2_pos_bounds my) as [Ly Uy].
  destruct (Z.compare_spec ex ey) as [E|E|E].
  - subst ey. rewrite Z.min_id, Z.sub_diag, Z.pow_0_r, !Z.mul_1_r. reflexivity.
  - apply Z.compare_lt_iff.
    replace (Z.min ex ey) with ex by lia. rewrite Z.sub_diag, Z.pow_0_r, Z.mul_1_r.
    assert (Hy : Zpos (digits2_pos my) = 53) by lia.
    assert (Hx : Zpos (digits2_pos mx) <= 53) by lia.
    rewrite Hy in Ly.
    assert (P1 : 2 ^ Zpos (digits2_pos mx) <= 2 ^ 53) by (apply Z.pow_le_mono_r; lia).
    assert (P2 : 2 ^ 1 <= 2 ^ (ey - ex)) by (apply Z.pow_le_mono_r; lia).
    change (2 ^ (53 - 1)) with 4503599627370496 in Ly.
    change (2 ^ 53) with 9007199254740992 in P1.
    change (2 ^ 1) with 2 in P2. nia.
  - apply Z.compare_gt_iff.
    replace (Z.min ex ey) with ey by lia. rewrite Z.sub_diag, Z.pow_0_r, Z.mul_1_r.
    assert (Hx : Zpos (digits2_pos mx) = 53) by lia.
    assert (Hy : Zpos (digits2_pos my) <= 53) by lia.
    rewrite Hx in Lx.
    assert (P1 : 2 ^ Zpos (digits2_pos my) <= 2 ^ 53) by (apply Z.pow_le_mono_r; lia).
    assert (P2 : 2 ^ 1 <= 2 ^ (ex - ey)) by (apply Z.pow_le_mono_r; lia).
    change (2 ^ (53 - 1)) with 4503599627370496 in Lx.
    change (2 ^ 53) with 9007199254740992 in P1.
    change (2 ^ 1) with 2 in P2. nia.
Qed.

(** Shifting right keeps a mantissa positive as long as digits remain. *)
Lemma shr_1_m mrs : 0 <= shr_m mrs -> shr_m (shr_1 mrs) = shr_m mrs / 2.
Proof.
  rewrite <- Z.div2_div.
  destruct mrs as [m r s]. destruct m as [|[p|p|]|p]; simpl; intros H;
    try reflexivity; lia.
Qed.

Lemma iter_shr_1 p : forall mrs,
  0 <= shr_m mrs ->
  0 <= shr_m (iter_pos shr_1 p mrs) /\
  shr_m (iter_pos shr_1 p mrs) = shr_m mrs / 2 ^ Zpos p.
Proof.
  induction p as [p IH|p IH|]; intros mrs H; simpl iter_pos.
  - assert (Hp : 0 < 2 ^ Zpos p) by (apply Z.pow_pos_nonneg; lia).
    assert (P : 2 ^ Zpos p~1 = 2 * (2 ^ Zpos p * 2 ^ Zpos p)).
    { replace (Zpos p~1) with (1 + (Zpos p + Zpos p)) by lia.
      rewrite !Z.pow_add_r, Z.pow_1_r by lia. reflexivity. }
    assert (H1 : 0 <= shr_m (shr_1 mrs)).
    { rewrite shr_1_m by exact H. apply Z.div_pos; lia. }
    destruct (IH _ H1) as [H2 E2]. destruct (IH _ H2) as [H3 E3].
    split; [exact H3|]. rewrite E3, E2, shr_1_m, P by exact H.
    rewrite !Z.div_div by lia. reflexivity.
  - assert (Hp : 0 < 2 ^ Zpos p) by (apply Z.pow_pos_nonneg; lia).
    assert (P : 2 ^ Zpos p~0 = 2 ^ Zpos p * 2 ^ Zpos p).
    { replace (Zpos p~0) with (Zpos p + Zpos p) by lia.
      rewrite Z.pow_add_r by lia. reflexivity. }
    destruct (IH _ H) as [H2 E2]. destruct (IH _ H2) as [H3 E3].
    split; [exact H3|]. rewrite E3, E2, P.
    rewrite !Z.div_div by lia. reflexivity.
  - rewrite shr_1_m by exact H. split; [apply Z.div_pos; lia|reflexivity].
Qed.

Lemma shr_m_of_loc m l : shr_m (shr_record_of_loc m l) = m.
Proof. destruct l as [|[]]; reflexivity. Qed.

Lemma shr_fexp_positive m e l :
  0 < m -> -1074 <= e ->
  0 < shr_m (fst (shr_fexp prec emax m e l)) /\
  -1074 <= snd (shr_fexp prec emax m e l).
Proof.
  intros Hm He. unfold shr_fexp, shr. rewrite fexp_eq.
  destruct m as [|p|p]; try lia. cbn [Zdigits2].
  pose proof (digits2_pos_bounds p) as [L U].
  destruct (Z.max (Zpos (digits2_pos p) + e - 53) (-1074) - e) as [|q|q] eqn:E;
    cbn [fst snd]; rewrite ?shr_m_of_loc; try (split; lia).
  destruct (iter_shr_1 q (shr_record_of_loc (Zpos p) l)) as [_ ->];
    [rewrite shr_m_of_loc; lia|].
  rewrite shr_m_of_loc. split; [|lia].
  apply Z.div_str_pos. split; [apply Z.pow_pos_nonneg; lia|].
  apply Z.le_trans with (2 ^ (Zpos (digits2_pos p) - 1)); [|exact L].
  apply Z.pow_le_mono_r; lia.
Qed.

Lemma round_nearest_even_positive m l : 0 < m -> 0 < round_nearest_even m l.
Proof.
  intros H. destruct l as [|[]]; simpl; try lia. destruct (Z.even m); lia.
Qed.

Definition signed (s : bool) (x : spec_float) : bool :=
  match x with
  | S754_infinity s' | S754_finite s' _ _ => Bool.eqb s s'
  | _ => false
  end.

(** Rounding a positive mantissa at an exponent of the format gives no zero:
    the result is a number or an infinity of the sign given. *)
Lemma binary_round_aux_signed s m e l :
  0 < m -> -1074 <= e -> signed s (binary_round_aux prec emax s m e l) = true.
Proof.
  intros Hm He. unfold binary_round_aux.
  destruct (shr_fexp_positive m e l Hm He) as [H1 H2].
  destruct (shr_fexp prec emax m e l) as [mrs' e']. cbn [fst snd] in H1, H2.
  pose proof (round_nearest_even_positive _ (loc_of_shr_record mrs') H1) as H3.
  destruct (shr_fexp_positive _ e' loc_Exact H3 H2) as [H4 _].
  destruct (shr_fexp prec emax _ e' loc_Exact) as [mrs'' e'']. cbn [fst] in H4.
  destruct (shr_m mrs''); try lia.
  destruct (Z.leb e'' _); simpl; apply Bool.eqb_reflx.
Qed.

Lemma binary_round_signed s m e :
  -1074 <= e -> signed s (binary_round prec emax s m e) = true.
Proof.
  intros He. unfold binary_round.
  destruct (shl_align m e _) as [mz ez] eqn:E.
  apply binary_round_aux_signed; [lia|].
  unfold shl_align in E. rewrite fexp_eq in E.
  destruct (Z.max _ _ - e) eqn:D; inversion E; subst; lia.
Qed.

Lemma signed_negative x : signed true x = true -> not_negative x = false.
Proof. destruct x as [[]|[]| |[] m e]; simpl; congruence. Qed.

Lemma signed_positive x : signed false x = true -> not_negative x = true.
Proof. destruct x as [[]|[]| |[] m e]; simpl; congruence. Qed.

Lemma bounded_canonical m e :
  bounded prec emax m e = true -> canonical_mantissa prec emax m e = true.
Proof. unfold bounded. intros H. now apply andb_prop in H as [H _]. Qed.

(** The sum of two floats is below zero exactly when the second is below the
    opposite of the first: a sum of two floats that is not zero does not round
    to zero. *)
Lemma SFadd_negative x y :
  valid_binary x = true -> valid_binary y = true ->
  negb (not_negative (SFadd prec emax x y)) = SFltb y (SFopp x).
Proof.
  destruct x as [[]|[]| |sx mx ex], y as [[]|[]| |sy my ey]; try reflexivity;
    try (destruct sx; reflexivity); try (destruct sy; reflexivity).
  cbn [SpecFloat.valid_binary]. intros Vx Vy.
  apply bounded_canonical in Vx, Vy.
  pose proof (aligned_compare mx ex my ey Vx Vy) as A.
  pose proof (canonical_exponent _ _ Vx) as Ex.
  pose proof (canonical_exponent _ _ Vy) as Ey.
  assert (Hz : -1074 <= Z.min ex ey) by lia.
  unfold SFadd, SFltb, SFopp.
  set (ax := fst (shl_align mx ex (Z.min ex ey))) in *.
  set (ay := fst (shl_align my ey (Z.min ex ey))) in *.
  destruct sx, sy; cbn [cond_Zopp negb SFcompare Z.opp].
  - change (Zneg ax + Zneg ay) with (Zneg (ax + ay)). cbn [binary_normalize].
    now rewrite (signed_negative _ (binary_round_signed true (ax + ay) _ Hz)).
  - destruct (Zneg ax + Zpos ay) as [|t|t] eqn:T; cbn [binary_normalize].
    + assert (C : (Zpos ax ?= Zpos ay) = Eq) by (apply Z.compare_eq_iff; lia).
      rewrite C in A. rewrite (Z.compare_antisym ex ey).
      destruct (ex ?= ey); simpl; try discriminate.
      change (Pos.compare_cont Eq my mx) with (my ?= mx)%positive.
      now rewrite (Pos.compare_antisym mx my), <- A.
    + assert (C : (Zpos ax ?= Zpos ay) = Lt) by (apply Z.compare_lt_iff; lia).
      rewrite C in A. rewrite (Z.compare_antisym ex ey).
      rewrite (signed_positive _ (binary_round_signed false t _ Hz)).
      destruct (ex ?= ey); simpl; try discriminate; try reflexivity.
      change (Pos.compare_cont Eq my mx) with (my ?= mx)%positive.
      now rewrite (Pos.compare_antisym mx my), <- A.
    + assert (C : (Zpos ax ?= Zpos ay) = Gt) by (apply Z.compare_gt_iff; lia).
      rewrite C in A. rewrite (Z.compare_antisym ex ey).
      rewrite (signed_negative _ (binary_round_signed true t _ Hz)).
      destruct (ex ?= ey); simpl; try discriminate; try reflexivity.
      change (Pos.compare_cont Eq my mx) with (my ?= mx)%positive.
      now rewrite (Pos.compare_antisym mx my), <- A.
  - destruct (Zpos ax + Zneg ay) as [|t|t] eqn:T; cbn [binary_normalize].
    + assert (C : (Zpos ax ?= Zpos ay) = Eq) by (apply Z.compare_eq_iff; lia).
      rewrite C in A. rewrite (Z.compare_antisym ex ey).
      destruct (ex ?= ey); simpl; try discriminate.
      change (Pos.compare_cont Eq my mx) with (my ?= mx)%positive.
      now rewrite (Pos.compare_antisym mx my), <- A.
    + assert (C : (Zpos ax ?= Zpos ay) = Gt) by (apply Z.compare_gt_iff; lia).
      rewrite C in A. rewrite (Z.compare_antisym ex ey).
      rewrite (signed_positive _ (binary_round_signed false t _ Hz)).
      destruct (ex ?= ey); simpl; try discriminate; try reflexivity.
      change (Pos.compare_cont Eq my mx) with (my ?= mx)%positive.
      now rewrite (Pos.compare_antisym mx my), <- A.
    + assert (C : (Zpos ax ?= Zpos ay) = Lt) by (apply Z.compare_lt_iff; lia).
      rewrite C in A. rewrite (Z.compare_antisym ex ey).
      rewrite (signed_negative _ (binary_round_signed true t _ Hz)).
      destruct (ex ?= ey); simpl; try discriminate; try reflexivity.
      change (Pos.compare_cont Eq my mx) with (my ?= mx)%positive.
      now rewrite (Pos.compare_antisym mx my), <- A.
  - change (Zpos ax + Zpos ay) with (Zpos (ax + ay)). cbn [binary_normalize].
    now rewrite (signed_positive _ (binary_round_signed false (ax + ay) _ Hz)).
Qed.

Local Open Scope float_scope.

Lemma add_negative a b : (a + b <? 0) = (b <? - a).
Proof.
  rewrite !ltb_spec, add_spec, opp_spec. unfold SF64add.
  rewrite <- (SFadd_negative _ _ (Prim2SF_valid a) (Prim2SF_valid b)).
  replace (Prim2SF 0) with (S754_zero false) by reflexivity.
  destruct (SFadd prec emax (Prim2SF a) (Prim2SF b)) as [[]|[]| |[] m e]; reflexivity.
Qed.

End FloatAdd.

(** ** Lists *)

Lemma nth_error_cwise2 {A B C : Type} (op : A -> B -> C) u v i a b :
  nth_error u i = Some a -> nth_error v i = Some b ->
  nth_error (cwise2 op u v) i = Some (op a b).
Proof.
  revert v i. induction u as [|a' u IH]; intros [|b' v] [|i]; simpl;
    try discriminate; intros Ha Hb.
  - congruence.
  - now apply IH.
Qed.

Lemma skipn_nth_error_Some {A : Type} (l : list A) i a :
  nth_error l i = Some a -> skipn i l = a :: skipn (S i) l.
Proof.
  revert i. induction l as [|b l IH]; intros [|i]; simpl; try discriminate.
  - congruence.
  - intros H. now rewrite (IH i H).
Qed.

Lemma skipn_nth_error_None {A : Type} (l : list A) i :
  nth_error l i = None -> skipn i l = [].
Proof.
  intros H. apply skipn_all2. now apply nth_error_None.
Qed.

(** ** CheckBounds *)

Lemma CheckBounds_loop_zip bounds i x :
  snd (CheckBounds_loop bounds i x) = check_zip (skipn i bounds) x.
Proof.
  revert i. induction x as [|xi x IH]; intros i; simpl.
  - reflexivity.
  - destruct (nth_error bounds i) as [bound|] eqn:E.
    + rewrite (skipn_nth_error_Some _ _ _ E). unfold outside.
      destruct ((xi <? fst bound) || (snd bound <? xi)); simpl.
      * reflexivity.
      * specialize (IH (S i)).
        destruct (CheckBounds_loop bounds (S i) x) as [reads r]. exact IH.
    + now rewrite (skipn_nth_error_None _ _ E).
Qed.

Lemma CheckBounds_loop_reads bounds i x :
  let reads := fst (CheckBounds_loop bounds i x) in
  reads = seq i (length reads) /\ length reads <= length x /\
  (snd (CheckBounds_loop bounds i x) = Some true -> length reads = length x) /\
  (length x <= length (skipn i bounds) -> Forall (fun k => k < length bounds) reads).
Proof.
  revert i. induction x as [|xi x IH]; intros i; simpl.
  - repeat split; auto.
  - destruct (nth_error bounds i) as [bound|] eqn:E.
    + assert (Hi : i < length bounds) by (apply nth_error_Some; congruence).
      rewrite (skipn_nth_error_Some _ _ _ E).
      destruct ((xi <? fst bound) || (snd bound <? xi)); simpl.
      * repeat split; auto; try lia; try discriminate.
      * specialize (IH (S i)).
        destruct (CheckBounds_loop bounds (S i) x) as [reads r]. simpl in *.
        destruct IH as (Hs & Hl & Ht & Hb).
        repeat split.
        -- now rewrite <- Hs.
        -- lia.
        -- intros Hr. now rewrite (Ht Hr).
        -- intros Hlen. constructor; [exact Hi|]. apply Hb. lia.
    + rewrite (skipn_nth_error_None _ _ E). simpl.
      repeat split; auto; try lia; try discriminate.
Qed.

(** The loop stops at the first coordinate strictly outside its bound: it
    has read the bounds up to that index and no further. *)
Lemma CheckBounds_loop_first_outside bounds i x k xk bound :
  nth_error x k = Some xk -> nth_error bounds (i + k) = Some bound ->
  outside bound xk = true ->
  (forall j xj b, j < k -> nth_error x j = Some xj ->
     nth_error bounds (i + j) = Some b -> outside b xj = false) ->
  CheckBounds_loop bounds i x = (seq i (S k), Some false).
Proof.
  revert i k. induction x as [|a x IH]; intros i [|k] Hx Hb Ho Hfirst;
    simpl in Hx; try discriminate.
  - inversion Hx; subst a. rewrite Nat.add_0_r in Hb. simpl. rewrite Hb.
    unfold outside in Ho. now rewrite Ho.
  - simpl. destruct (nth_error bounds i) as [b0|] eqn:E.
    + assert (O : outside b0 a = false).
      { apply (Hfirst 0%nat a b0); [lia|reflexivity|now rewrite Nat.add_0_r]. }
      unfold outside in O. rewrite O.
      rewrite (IH (S i) k Hx).
      * reflexivity.
      * now replace (S i + k)%nat with (i + S k)%nat by lia.
      * exact Ho.
      * intros j xj b Hj Hxj Hbj. apply (Hfirst (S j) xj b); [lia|exact Hxj|].
        now replace (i + S j)%nat with (S i + j)%nat by lia.
    + apply nth_error_None in E.
      assert (i + S k < length bounds) by (apply nth_error_Some; congruence). lia.
Qed.

Lemma CheckBounds_loop_stops bounds i x :
  match snd (CheckBounds_loop bounds i x) with
  | Some true => True
  | Some false =>
      exists k xk bound,
        nth_error x k = Some xk /\ nth_error bounds (i + k) = Some bound /\
        outside bound xk = true /\
        (forall j xj, j < k -> nth_error x j = Some xj ->
           exists b, nth_error bounds (i + j) = Some b /\ outside b xj = false) /\
        fst (CheckBounds_loop bounds i x) = seq i (S k)
  | None =>
      exists k,
        k < length x /\ nth_error bounds (i + k) = None /\
        (forall j xj, j < k -> nth_error x j = Some xj ->
           exists b, nth_error bounds (i + j) = Some b /\ outside b xj = false) /\
        fst (CheckBounds_loop bounds i x) = seq i (S k)
  end.
Proof.
  revert i. induction x as [|a x IH]; intros i; simpl.
  - exact I.
  - destruct (nth_error bounds i) as [b0|] eqn:E.
    + destruct ((a <? fst b0) || (snd b0 <? a)) eqn:O; simpl.
      * exists 0%nat, a, b0. rewrite Nat.add_0_r.
        repeat split; auto. intros j xj Hj. lia.
      * specialize (IH (S i)).
        destruct (CheckBounds_loop bounds (S i) x) as [reads r]. simpl in *.
        destruct r as [[]|].
        -- exact I.
        -- destruct IH as (k & xk & bound & Hx & Hb & Ho & Hfirst & Hr).
           exists (S k), xk, bound.
           replace (i + S k)%nat with (S i + k)%nat by lia.
           repeat split; auto; [|now rewrite Hr].
           intros [|j] xj Hj Hxj; simpl in Hxj.
           ++ inversion Hxj; subst xj. exists b0. rewrite Nat.add_0_r. auto.
           ++ replace (i + S j)%nat with (S i + j)%nat by lia.
              apply Hfirst; [lia|exact Hxj].
        -- destruct IH as (k & Hk & Hb & Hfirst & Hr).
           exists (S k).
           replace (i + S k)%nat with (S i + k)%nat by lia.
           repeat split; auto; [lia| |now rewrite Hr].
           intros [|j] xj Hj Hxj; simpl in Hxj.
           ++ inversion Hxj; subst xj. exists b0. rewrite Nat.add_0_r. auto.
           ++ replace (i + S j)%nat with (S i + j)%nat by lia.
              apply Hfirst; [lia|exact Hxj].
    + simpl. exists 0%nat. rewrite Nat.add_0_r.
      repeat split; auto; [lia|]. intros j xj Hj. lia.
Qed.

Lemma check_zip_short bounds x :
  length x <= length bounds -> check_zip bounds x = Some (feasible_prefix bounds x).
Proof.
  unfold feasible_prefix.
  revert bounds. induction x as [|xi x IH]; intros [|bound bounds]; simpl; auto.
  - lia.
  - intros H. destruct (outside bound xi); simpl.
    + reflexivity.
    + apply IH. lia.
Qed.

Lemma check_zip_long bounds x :
  length bounds < length x ->
  check_zip bounds x = if feasible_prefix bounds x then None else Some false.
Proof.
  unfold feasible_prefix.
  revert bounds. induction x as [|xi x IH]; intros [|bound bounds]; simpl; auto; try lia.
  intros H. destruct (outside bound xi); simpl.
  - reflexivity.
  - apply IH. lia.
Qed.

Lemma check_zip_true bounds x :
  check_zip bounds x = Some true ->
  forall i xi, nth_error x i = Some xi ->
    exists bound, nth_error bounds i = Some bound /\ outside bound xi = false.
Proof.
  revert bounds. induction x as [|a x IH]; intros [|bound bounds] H i xi Hx;
    simpl in *; try discriminate; try (destruct i; discriminate).
  destruct (outside bound a) eqn:E; try discriminate.
  destruct i as [|i]; simpl in *.
  - inversion Hx; subst. eauto.
  - eapply IH; eauto.
Qed.

Lemma feasible_prefix_within bounds x :
  within_bounds bounds x -> feasible_prefix bounds x = true.
Proof.
  unfold feasible_prefix, within_bounds.
  revert bounds. induction x as [|a x IH]; intros [|bound bounds] H; simpl; auto.
  rewrite IH.
  - specialize (H 0%nat a bound eq_refl eq_refl). unfold inside in H.
    apply andb_prop in H as [Hl Hh]. unfold outside.
    now rewrite (FloatFacts.ltb_leb_false _ _ Hl), (FloatFacts.ltb_leb_false _ _ Hh).
  - intros i xi b Hx Hb. exact (H (S i) xi b Hx Hb).
Qed.

Lemma feasible_prefix_outside bounds x i xi bound :
  nth_error x i = Some xi -> nth_error bounds i = Some bound ->
  outside bound xi = true -> feasible_prefix bounds x = false.
Proof.
  unfold feasible_prefix.
  revert bounds i. induction x as [|a x IH]; intros [|b bounds] [|i]; simpl;
    try discriminate; intros Hx Hb Ho.
  - inversion Hx; inversion Hb; subst. now rewrite Ho.
  - rewrite (IH _ _ Hx Hb Ho). apply andb_false_r.
Qed.

Lemma outside_false_inside bound xi :
  outside bound xi = false -> is_nan xi = false -> bound_ok bound = true ->
  inside bound xi = true.
Proof.
  unfold outside, inside, bound_ok. intros Ho Hn Hb.
  apply orb_false_elim in Ho as [Hl Hh].
  destruct (FloatFacts.leb_not_nan _ _ Hb) as [Nl Nh].
  rewrite (FloatFacts.not_ltb_leb _ _ Nl Hn Hl), (FloatFacts.not_ltb_leb _ _ Hn Nh Hh).
  reflexivity.
Qed.

Section Properties.

Variables exp erfc : float -> float.
Variable kernel_predict :
  float -> option (matrix * matrix) -> matrix -> vector * vector.
Variable ApproxFPrime : vector -> (vector -> option float) -> float -> option vector.
Variable minimize :
  LBFGSParam -> (vector -> option (float * vector)) -> vector -> option (vector * float).
Variable mt19937 : Type.
Variable draw : uniform_real_distribution -> mt19937 -> float * mt19937.

Local Abbreviation session := (BayesianOptimization mt19937).
Local Abbreviation predict := (Predict kernel_predict).
Local Abbreviation EI := (ExpectedImprovement exp erfc kernel_predict).
Local Abbreviation neg_ei := (neg_acquisition exp erfc kernel_predict).
Local Abbreviation objective := (min_obj exp erfc kernel_predict ApproxFPrime).
Local Abbreviation Propose := (ProposeLocation exp erfc kernel_predict ApproxFPrime minimize draw).
Local Abbreviation Next := (NextSample exp erfc kernel_predict ApproxFPrime minimize draw).
Local Abbreviation reach := (reachable exp erfc kernel_predict ApproxFPrime minimize draw).

Lemma CheckBounds_zip (s : session) x : CheckBounds s x = check_zip (bounds_ s) x.
Proof. unfold CheckBounds. now rewrite CheckBounds_loop_zip. Qed.


(** C6: for a candidate of the session's dimension, the objective's value is
    the negated acquisition value, [-EI(x)[0]], when every coordinate is
    inside its bound (endpoints included), and the largest double when some
    coordinate is strictly outside its bound. *)
Theorem min_obj_value (s : session) (x_sample : matrix) (x : vector) :
  length x = length (bounds_ s) ->
  (within_bounds (bounds_ s) x ->
     objective s x_sample x =
       (ei <- EI s [x] x_sample ;;
        e <- coeff ei 0 ;;
        grad <- ApproxFPrime x (neg_ei s x_sample) (- e) ;;
        Some (- e, grad))) /\
  ((exists i xi bound,
      nth_error x i = Some xi /\ nth_error (bounds_ s) i = Some bound /\
      outside bound xi = true) ->
     objective s x_sample x =
       (grad <- ApproxFPrime x (neg_ei s x_sample) DBL_MAX ;;
        Some (DBL_MAX, grad))).
Proof.
  intros Hlen. unfold min_obj. rewrite CheckBounds_zip.
  rewrite check_zip_short by lia. split.
  - intros Hin. rewrite (feasible_prefix_within _ _ Hin). simpl.
    unfold neg_acquisition at 1.
    destruct (EI s [x] x_sample) as [ei|]; simpl; [|reflexivity].
    destruct ei as [|e ei']; reflexivity.
  - intros (i & xi & bound & Hx & Hb & Ho).
    rewrite (feasible_prefix_outside _ _ _ _ _ Hx Hb Ho). reflexivity.
Qed.

(** *** ExpectedImprovement *)

(** The coefficient-wise array expressions, read one query point at a time. *)
Lemma ExpectedImprovement_pointwise (t xi : float) (mu sigma : vector) :
  let imp := map (fun m => m - t - xi) mu in
  let z := cwise2 div imp sigma in
  cwise2 (fun sg e => if negb (sg =? 0) then e else 0) sigma
    (cwise2 add (cwise2 mul imp (map (cdf erfc) z))
                (cwise2 mul sigma (map (pdf exp) z)))
  = cwise2 (acquisition_with_threshold exp erfc t xi) mu sigma.
Proof.
  simpl. revert sigma. induction mu as [|m mu IH]; intros [|sg sigma]; simpl;
    try reflexivity.
  f_equal. apply IH.
Qed.

Lemma ExpectedImprovement_eq (s : session) (x x_sample : matrix) :
  EI s x x_sample =
    (t <- maxCoeff (fst (predict (gpr_ s) x_sample)) ;;
     Some (cwise2 (acquisition_with_threshold exp erfc t (xi_ s))
             (fst (predict (gpr_ s) x)) (snd (predict (gpr_ s) x)))).
Proof.
  unfold ExpectedImprovement.
  destruct (predict (gpr_ s) x) as [mu sigma]. simpl.
  destruct (maxCoeff _) as [t|]; simpl; [|reflexivity].
  f_equal. apply ExpectedImprovement_pointwise.
Qed.

Lemma fold_max_spec (l : vector) (a : float) (seen : vector) :
  In a seen -> (forall m, In m seen -> (a <? m) = false) ->
  let t := fold_left (fun acc b => if acc <? b then b else acc) l a in
  In t (seen ++ l) /\ forall m, In m (seen ++ l) -> (t <? m) = false.
Proof.
  revert a seen. induction l as [|b l IH]; intros a seen Ha Hmax; simpl.
  - rewrite app_nil_r. auto.
  - replace (seen ++ b :: l) with ((seen ++ [b]) ++ l)
      by (rewrite <- app_assoc; reflexivity).
    apply IH.
    + destruct (a <? b); apply in_or_app; simpl; auto.
    + intros m Hm. apply in_app_or in Hm as [Hm|[Hm|[]]].
      * destruct (a <? b) eqn:E; [|auto].
        apply not_true_is_false. intros L.
        pose proof (FloatFacts.ltb_trans _ _ _ E L) as T.
        rewrite (Hmax m Hm) in T. discriminate.
      * subst m. destruct (a <? b) eqn:E; [apply FloatFacts.ltb_irrefl|exact E].
Qed.

Lemma maxCoeff_spec (v : vector) (t : float) :
  maxCoeff v = Some t ->
  In t v /\ (forall m, In m v -> (t <? m) = false) /\
  ((forall m, In m v -> is_nan m = false) -> forall m, In m v -> (m <=? t) = true).
Proof.
  destruct v as [|a v]; simpl; [discriminate|].
  intros H. injection H as <-.
  destruct (fold_max_spec v a [a]) as [Hin Hmax].
  - simpl; auto.
  - intros m [<-|[]]. apply FloatFacts.ltb_irrefl.
  - change ([a] ++ v) with (a :: v) in Hin, Hmax.
    split; [exact Hin|]. split; [exact Hmax|].
    intros Hnan m Hm. apply FloatFacts.not_ltb_leb; auto.
Qed.

(** C2: where the predictive standard deviation is exactly 0, the value
    ExpectedImprovement returns for that query point is exactly 0, whatever
    the predictive mean, the fitted means at the observed inputs and [xi]. *)
Theorem ExpectedImprovement_zero_deviation
  (s : session) (x x_sample : matrix) (i : nat) (m sg : float) :
  fst (predict (gpr_ s) x_sample) <> [] ->
  nth_error (fst (predict (gpr_ s) x)) i = Some m ->
  nth_error (snd (predict (gpr_ s) x)) i = Some sg ->
  (sg =? 0) = true ->
  exists ei, EI s x x_sample = Some ei /\ nth_error ei i = Some 0.
Proof.
  intros Hne Hm Hsg Hz. rewrite ExpectedImprovement_eq.
  destruct (fst (predict (gpr_ s) x_sample)) as [|a v] eqn:E; [congruence|].
  simpl. eexists. split; [reflexivity|].
  rewrite (nth_error_cwise2 _ _ _ _ _ _ Hm Hsg).
  unfold acquisition_with_threshold. now rewrite Hz.
Qed.

(** C3: where the predictive standard deviation [sg] is not 0, the value for
    the query point is [imp * Phi z + sg * phi z] with
    [imp = m - mu_sample_opt - xi], [z = imp / sg],
    [phi z = exp (-z^2/2) / sqrt (2 pi)] and [Phi z = 0.5 * erfc (-z / sqrt 2)],
    the quotient by [sqrt 2] computed as the product with [M_SQRT1_2]. *)
Theorem ExpectedImprovement_formula
  (s : session) (x x_sample : matrix) (i : nat) (m sg mu_sample_opt : float) :
  maxCoeff (fst (predict (gpr_ s) x_sample)) = Some mu_sample_opt ->
  nth_error (fst (predict (gpr_ s) x)) i = Some m ->
  nth_error (snd (predict (gpr_ s) x)) i = Some sg ->
  (sg =? 0) = false ->
  exists ei,
    EI s x x_sample = Some ei /\
    nth_error ei i =
      Some (let imp := m - mu_sample_opt - xi_ s in
            let z := imp / sg in
            imp * (0.5 * erfc (- z * M_SQRT1_2))
            + sg * (exp (- (z * z) / 2) / sqrt (2 * M_PI))) /\
    nth_error ei i = Some (expected_improvement_formula exp erfc mu_sample_opt (xi_ s) m sg).
Proof.
  intros Ht Hm Hsg Hz. rewrite ExpectedImprovement_eq, Ht. simpl.
  eexists. split; [reflexivity|].
  rewrite (nth_error_cwise2 _ _ _ _ _ _ Hm Hsg).
  unfold acquisition_with_threshold. rewrite Hz. simpl. split; reflexivity.
Qed.

(** C4: the threshold in ExpectedImprovement is the greatest of the
    surrogate's fitted means at the observed inputs: it is one of them and
    none exceeds it.  The stored raw outputs do not enter: the result is the
    same whatever the session's sample stores hold. *)
Theorem ExpectedImprovement_threshold
  (s : session) (x x_sample : matrix) (ei : vector) :
  EI s x x_sample = Some ei ->
  let mu_sample := fst (predict (gpr_ s) x_sample) in
  exists mu_sample_opt,
    maxCoeff mu_sample = Some mu_sample_opt /\
    In mu_sample_opt mu_sample /\
    (forall m, In m mu_sample -> (mu_sample_opt <? m) = false) /\
    ((forall m, In m mu_sample -> is_nan m = false) ->
     forall m, In m mu_sample -> (m <=? mu_sample_opt) = true) /\
    ei = cwise2 (acquisition_with_threshold exp erfc mu_sample_opt (xi_ s))
           (fst (predict (gpr_ s) x)) (snd (predict (gpr_ s) x)) /\
    forall x_samples y_samples,
      EI (mkSession (d_ s) (bounds_ s) (xi_ s) (dists_ s) (gen_ s) (gpr_ s)
            x_samples y_samples) x x_sample = Some ei.
Proof.
  intros H mu_sample. rewrite ExpectedImprovement_eq in H.
  apply bind_Some in H as (t & Ht & H). inversion H as [Hei]. clear H.
  exists t. destruct (maxCoeff_spec _ _ Ht) as (Hin & Hmax & Hle).
  repeat split; auto.
  intros xs ys. rewrite ExpectedImprovement_eq. cbn [gpr_ xi_].
  rewrite Ht. reflexivity.
Qed.


(** *** ProposeLocation *)

Lemma restart_loop_runs (s : session) (x_sample : matrix) (n : nat)
  (x_next : vector) (fx_min : float) (gen : mt19937) :
  restart_loop exp erfc kernel_predict ApproxFPrime minimize draw
    s x_sample n x_next fx_min gen =
  ('(runs, gen') <-
     restart_runs minimize draw (objective s x_sample) (dists_ s) (d_ s) n gen ;;
   Some (fst (best_run runs (x_next, fx_min)), gen')).
Proof.
  revert x_next fx_min gen. induction n as [|n IH]; intros x_next fx_min gen; simpl.
  - reflexivity.
  - destruct (draw_start draw (dists_ s) 0 (d_ s) (Zero (d_ s)) gen)
      as [[x0 gen1]|]; simpl; [|reflexivity].
    destruct (minimize solver_param (objective s x_sample) x0)
      as [[x fx]|]; simpl; [|reflexivity].
    destruct (fx <? fx_min) eqn:E; rewrite IH;
      destruct (restart_runs _ _ _ _ _ n gen1) as [[runs gen2]|]; simpl;
      try reflexivity; unfold keep_best; cbn [snd]; rewrite E; reflexivity.
Qed.

Lemma restart_runs_minimize objective0 dists d n (gen : mt19937) runs gen' :
  restart_runs minimize draw objective0 dists d n gen = Some (runs, gen') ->
  length runs = n /\
  forall r, In r runs -> exists x0, minimize solver_param objective0 x0 = Some r.
Proof.
  revert gen runs gen'. induction n as [|n IH]; intros gen runs gen'; simpl.
  - intros H. inversion H; subst. split; [reflexivity|]. intros r [].
  - intros H.
    apply bind_Some in H as ([x0 gen1] & _ & H).
    apply bind_Some in H as (r0 & Hr0 & H).
    apply bind_Some in H as ([rs gen2] & Hrs & H).
    inversion H; subst. destruct (IH _ _ _ Hrs) as [Hlen Hall].
    split; [simpl; now rewrite Hlen|].
    intros r [<-|Hr]; eauto.
Qed.

Lemma best_run_spec (runs : list (vector * float)) (init : vector * float) :
  is_nan (snd init) = false ->
  let best := best_run runs init in
  ((forall r, In r runs -> (snd r <? snd init) = false) /\ best = init) \/
  (exists k,
     nth_error runs k = Some best /\
     (snd best <? snd init) = true /\
     (forall r, In r runs -> (snd r <? snd best) = false) /\
     (forall j r, (j < k)%nat -> nth_error runs j = Some r ->
        is_nan (snd r) = false -> (snd best <? snd r) = true)).
Proof.
  revert init. induction runs as [|r runs IH]; intros init Hnan; simpl.
  - left. split; [intros r []|reflexivity].
  - unfold best_run. simpl. fold (best_run runs (keep_best init r)).
    unfold keep_best. destruct (snd r <? snd init) eqn:E.
    + right. destruct (FloatFacts.ltb_not_nan _ _ E) as [Hr _].
      destruct (IH r Hr) as [[Hnone Hbest]|(k & Hk & Hlt & Hlow & Hprev)].
      * exists 0%nat. rewrite Hbest. simpl. repeat split; auto.
        -- intros r' [<-|Hr']; [apply FloatFacts.ltb_irrefl|auto].
        -- intros j r' Hj. lia.
      * exists (S k). simpl. repeat split; auto.
        -- eapply FloatFacts.ltb_trans; eassumption.
        -- intros r' [<-|Hr']; [now apply FloatFacts.ltb_asym|auto].
        -- intros [|j] r' Hj Hr' Hn; simpl in Hr'.
           ++ inversion Hr'; subst. exact Hlt.
           ++ apply (Hprev j r'); auto. lia.
    + destruct (IH init Hnan) as [[Hnone Hbest]|(k & Hk & Hlt & Hlow & Hprev)].
      * left. split; [|exact Hbest]. intros r' [<-|Hr']; auto.
      * right. exists (S k). simpl. repeat split; auto.
        -- intros r' [<-|Hr']; [|auto].
           apply not_true_is_false. intros L.
           rewrite (FloatFacts.ltb_trans _ _ _ L Hlt) in E. discriminate.
        -- intros [|j] r' Hj Hr' Hn; simpl in Hr'.
           ++ inversion Hr'; subst.
              apply FloatFacts.ltb_leb_trans with (snd init); [exact Hlt|].
              apply FloatFacts.not_ltb_leb; auto.
           ++ apply (Hprev j r'); auto. lia.
Qed.

(** C7: when the restarts produce the runs [runs] (the solver's final point
    and value of each, in order), ProposeLocation returns the zero vector of
    length [d] if no run's value is strictly below the largest double, and
    otherwise the point of a run whose value is strictly below the largest
    double, is undercut by no run, and is strictly below the value of every
    earlier run that is a number. *)
Theorem ProposeLocation_best
  (s : session) (x_sample y_sample : matrix) (n_restarts : Z)
  (runs : list (vector * float)) (gen' : mt19937) :
  restart_runs minimize draw (objective s x_sample) (dists_ s) (d_ s)
    (Z.to_nat n_restarts) (gen_ s) = Some (runs, gen') ->
  exists x_next,
    Propose s x_sample y_sample n_restarts = Some (x_next, set_gen s gen') /\
    (((forall r, In r runs -> (snd r <? DBL_MAX) = false) /\ x_next = Zero (d_ s)) \/
     (exists k fx,
        nth_error runs k = Some (x_next, fx) /\
        (fx <? DBL_MAX) = true /\
        (forall r, In r runs -> (snd r <? fx) = false) /\
        (forall j r, (j < k)%nat -> nth_error runs j = Some r ->
           is_nan (snd r) = false -> (fx <? snd r) = true))).
Proof.
  intros Hruns. unfold ProposeLocation. rewrite restart_loop_runs, Hruns. simpl.
  eexists. split; [reflexivity|].
  destruct (best_run_spec runs (Zero (d_ s), DBL_MAX) eq_refl)
    as [[Hnone Hbest]|(k & Hk & Hlt & Hlow & Hprev)].
  - left. split; [exact Hnone|]. now rewrite Hbest.
  - right. exists k, (snd (best_run runs (Zero (d_ s), DBL_MAX))).
    rewrite <- surjective_pairing. auto.
Qed.

(** *** NextSample *)

Lemma objective_below_max (s : session) (x_sample : matrix) (x : vector)
  (fx : float) (grad : vector) :
  objective s x_sample x = Some (fx, grad) -> (fx <? DBL_MAX) = true ->
  CheckBounds s x = Some true.
Proof.
  unfold min_obj. intros H Hlt.
  apply bind_Some in H as (b & Hb & H).
  apply bind_Some in H as (f0 & Hf0 & H).
  apply bind_Some in H as (g & _ & H). inversion H; subst.
  destruct b; [exact Hb|].
  inversion Hf0; subst. now rewrite FloatFacts.ltb_irrefl in Hlt.
Qed.


(** *** Determinism and reset *)

Lemma NextSample_inputs (s1 s2 : session) :
  d_ s1 = d_ s2 -> bounds_ s1 = bounds_ s2 -> xi_ s1 = xi_ s2 ->
  dists_ s1 = dists_ s2 -> gen_ s1 = gen_ s2 ->
  alpha_ (gpr_ s1) = alpha_ (gpr_ s2) ->
  x_samples_ s1 = x_samples_ s2 -> y_samples_ s1 = y_samples_ s2 ->
  Next s1 = Next s2.
Proof.
  destruct s1 as [d1 b1 xi1 ds1 g1 [a1 f1] xs1 ys1].
  destruct s2 as [d2 b2 xi2 ds2 g2 [a2 f2] xs2 ys2].
  simpl. intros; subst. reflexivity.
Qed.

Lemma NextSample_state (s : session) (x : vector) (s' : session) :
  Next s = Some (x, s') ->
  d_ s' = d_ s /\ bounds_ s' = bounds_ s /\ xi_ s' = xi_ s /\
  dists_ s' = dists_ s /\ alpha_ (gpr_ s') = alpha_ (gpr_ s) /\
  x_samples_ s' = x_samples_ s /\ y_samples_ s' = y_samples_ s.
Proof.
  unfold NextSample, ProposeLocation. intros H.
  apply bind_Some in H as (xs & _ & H).
  apply bind_Some in H as (ys & _ & H).
  apply bind_Some in H as ([x1 gen1] & _ & H). inversion H; subst.
  simpl. repeat split; reflexivity.
Qed.

Lemma reachable_fields bounds alpha xi gen0 (s : session) :
  reach bounds alpha xi gen0 s ->
  d_ s = length bounds /\ bounds_ s = bounds /\ xi_ s = xi /\
  dists_ s = GetDistributions bounds /\ alpha_ (gpr_ s) = alpha.
Proof.
  induction 1 as [|s x y _ IH|s _ IH|s x s' _ IH Hn]; simpl; auto.
  destruct (NextSample_state _ _ _ Hn) as (Hd & Hb & Hx & Hds & Ha & _).
  destruct IH as (Id & Ib & Ix & Ids & Ia).
  repeat split; congruence.
Qed.

Lemma AddSamples_fields (s : session) (samples : list (vector * vector)) :
  let s' := AddSamples s samples in
  d_ s' = d_ s /\ bounds_ s' = bounds_ s /\ xi_ s' = xi_ s /\
  dists_ s' = dists_ s /\ gen_ s' = gen_ s /\ gpr_ s' = gpr_ s /\
  x_samples_ s' = x_samples_ s ++ map fst samples /\
  y_samples_ s' = y_samples_ s ++ map snd samples.
Proof.
  revert s. induction samples as [|[x y] samples IH]; intros s; simpl.
  - rewrite !app_nil_r. repeat split; reflexivity.
  - destruct (IH (AddSample s x y)) as (Hd & Hb & Hx & Hds & Hg & Hp & Hxs & Hys).
    unfold AddSamples in *. simpl in *.
    rewrite Hd, Hb, Hx, Hds, Hg, Hp, Hxs, Hys, <- !app_assoc.
    repeat split; reflexivity.
Qed.

(** C8: two sessions constructed with the same bounds, [alpha] and [xi],
    whose random sources are in the same state and whose sample stores hold
    the same data, get the same result from NextSample, whatever else their
    histories were. *)
Theorem NextSample_deterministic bounds alpha xi gen1 gen2 (s1 s2 : session) :
  reachable exp erfc kernel_predict ApproxFPrime minimize draw bounds alpha xi gen1 s1 ->
  reachable exp erfc kernel_predict ApproxFPrime minimize draw bounds alpha xi gen2 s2 ->
  gen_ s1 = gen_ s2 ->
  x_samples_ s1 = x_samples_ s2 ->
  y_samples_ s1 = y_samples_ s2 ->
  NextSample exp erfc kernel_predict ApproxFPrime minimize draw s1
    = NextSample exp erfc kernel_predict ApproxFPrime minimize draw s2 /\
  option_map fst (NextSample exp erfc kernel_predict ApproxFPrime minimize draw s1)
    = option_map fst (NextSample exp erfc kernel_predict ApproxFPrime minimize draw s2).
Proof.
  intros R1 R2 Hg Hx Hy.
  destruct (reachable_fields _ _ _ _ _ R1) as (Hd1 & Hb1 & Hxi1 & Hds1 & Ha1).
  destruct (reachable_fields _ _ _ _ _ R2) as (Hd2 & Hb2 & Hxi2 & Hds2 & Ha2).
  assert (E : Next s1 = Next s2) by (apply NextSample_inputs; congruence).
  split; [exact E|now rewrite E].
Qed.

(** C9, as the code has it: after [Clear], a sequence of [AddSample] calls
    and [NextSample] give what they give on a session freshly constructed
    with the same bounds, [alpha] and [xi] whose random source is in the
    state the cleared session's random source is in. *)
Theorem Clear_as_fresh bounds alpha xi gen0 (s : session)
  (samples : list (vector * vector)) :
  reachable exp erfc kernel_predict ApproxFPrime minimize draw bounds alpha xi gen0 s ->
  NextSample exp erfc kernel_predict ApproxFPrime minimize draw
    (AddSamples (Clear s) samples) =
  NextSample exp erfc kernel_predict ApproxFPrime minimize draw
    (AddSamples (BayesianOptimization_new bounds alpha xi (gen_ s)) samples).
Proof.
  intros R.
  destruct (reachable_fields _ _ _ _ _ R) as (Hd & Hb & Hxi & Hds & Ha).
  destruct (AddSamples_fields (Clear s) samples)
    as (Cd & Cb & Cx & Cds & Cg & Cp & Cxs & Cys).
  destruct (AddSamples_fields (BayesianOptimization_new bounds alpha xi (gen_ s)) samples)
    as (Nd & Nb & Nx & Nds & Ng & Np & Nxs & Nys).
  simpl in *.
  apply NextSample_inputs; try congruence.
  rewrite Cp, Np. simpl. exact Ha.
Qed.

End Properties.

(** ** The constants *)

(** [M_SQRT1_2] is the square root of one half, as a double. *)
Lemma M_SQRT1_2_sqrt_half : M_SQRT1_2 = sqrt 0.5.
Proof. reflexivity. Qed.

(** [DBL_MAX] is the largest double below infinity. *)
Lemma DBL_MAX_largest : next_up DBL_MAX = infinity /\ (DBL_MAX <? infinity) = true.
Proof. split; reflexivity. Qed.

(** ** Runs in the concrete environment *)

Module Runs.
Import Concrete.

Set Warnings "-inexact-float".

Local Abbreviation ExpectedImprovement :=
  (ExpectedImprovement exp erfc kernel_predict (mt19937 := mt19937)).
Local Abbreviation min_obj :=
  (min_obj exp erfc kernel_predict ApproxFPrime (mt19937 := mt19937)).
Local Abbreviation ProposeLocation :=
  (ProposeLocation exp erfc kernel_predict ApproxFPrime minimize draw).
Local Abbreviation NextSample :=
  (NextSample exp erfc kernel_predict ApproxFPrime minimize draw).

Lemma descend_reports eps objective k x fx grad x1 fx1 :
  objective x = Some (fx, grad) ->
  descend eps objective k x fx grad = Some (x1, fx1) ->
  exists grad1, objective x1 = Some (fx1, grad1).
Proof.
  revert x fx grad. induction k as [|k IH]; intros x fx grad Hobj; simpl.
  - intros H. inversion H; subst. eauto.
  - destruct (norm grad <=? _).
    + intros H. inversion H; subst. eauto.
    + intros H. apply bind_Some in H as ([fx' grad'] & Hobj' & H).
      eapply IH; eassumption.
Qed.

(** The descent solver reports the objective's value at the point it
    returns. *)
Lemma minimize_reports param objective x0 x1 fx :
  minimize param objective x0 = Some (x1, fx) ->
  exists grad, objective x1 = Some (fx, grad).
Proof.
  unfold minimize. intros H.
  apply bind_Some in H as ([fx0 grad0] & Hobj & H).
  eapply descend_reports; eassumption.
Qed.

Lemma session_used_proposed :
  exists x, NextSample (session1 42%Z) = Some (x, session_used).
Proof. eexists. vm_compute. reflexivity. Qed.

Lemma session_used_reachable :
  reachable exp erfc kernel_predict ApproxFPrime minimize draw
    [(0, 1)] 1e-6 0.01 42%Z session_used.
Proof.
  destruct session_used_proposed as [x H].
  apply (reach_NextSample exp erfc kernel_predict ApproxFPrime minimize mt19937 draw
           [(0, 1)] 1e-6 0.01 42%Z (session1 42%Z) x session_used).
  - apply (reach_AddSample exp erfc kernel_predict ApproxFPrime minimize mt19937 draw
             [(0, 1)] 1e-6 0.01 42%Z (session0 42%Z) [0.5] [2]).
    apply reach_new.
  - exact H.
Qed.

Lemma AddSamples_reachable bounds alpha xi gen0 s samples :
  reachable exp erfc kernel_predict ApproxFPrime minimize draw bounds alpha xi gen0 s ->
  reachable exp erfc kernel_predict ApproxFPrime minimize draw bounds alpha xi gen0
    (AddSamples s samples).
Proof.
  revert s. induction samples as [|[x y] samples IH]; intros s R; simpl.
  - exact R.
  - apply IH. now apply reach_AddSample.
Qed.

(** The fitted mean is not the raw output: with the outputs 1 and 5 observed
    at one input, the threshold is the fitted mean 1 and not the raw
    maximum 5. *)
Lemma threshold_not_raw_maximum :
  y_samples_ fitted_twice = [[1]; [5]] /\
  maxCoeff (fst (Predict kernel_predict (gpr_ fitted_twice) [[0.5]; [0.5]])) = Some 1.
Proof. split; reflexivity. Qed.

(** C2 at a fitted input of a noise-free surrogate. *)
Lemma ExpectedImprovement_zero_deviation_witness :
  exists ei,
    ExpectedImprovement (set_gpr fitted3 (Fit (mkGPR 0 None) x_sample3 y_sample3))
      [[0.5]] x_sample3 = Some ei /\
    nth_error ei 0 = Some 0.
Proof.
  apply (ExpectedImprovement_zero_deviation exp erfc kernel_predict mt19937
           (set_gpr fitted3 (Fit (mkGPR 0 None) x_sample3 y_sample3))
           [[0.5]] x_sample3 0 2 0).
  - vm_compute. discriminate.
  - reflexivity.
  - reflexivity.
  - reflexivity.
Defined.

(** C3 away from the fitted inputs. *)
Lemma ExpectedImprovement_formula_witness :
  exists ei,
    ExpectedImprovement fitted3 [[0.25]] x_sample3 = Some ei /\
    nth_error ei 0 =
      Some (let imp := 0.5 / 3 - 2 - xi_ fitted3 in
            let z := imp / 1 in
            imp * (0.5 * erfc (- z * M_SQRT1_2))
            + 1 * (exp (- (z * z) / 2) / sqrt (2 * M_PI))) /\
    nth_error ei 0 =
      Some (expected_improvement_formula exp erfc 2 (xi_ fitted3) (0.5 / 3) 1).
Proof.
  apply (ExpectedImprovement_formula exp erfc kernel_predict mt19937
           fitted3 [[0.25]] x_sample3 0 (0.5 / 3) 1 2).
  - reflexivity.
  - vm_compute. reflexivity.
  - reflexivity.
  - reflexivity.
Defined.

(** C4 on the scenario. *)
Lemma ExpectedImprovement_threshold_witness :
  exists ei,
    ExpectedImprovement fitted3 [[0.25]] x_sample3 = Some ei /\
    exists mu_sample_opt,
      maxCoeff (fst (Predict kernel_predict (gpr_ fitted3) x_sample3))
        = Some mu_sample_opt /\
      In mu_sample_opt (fst (Predict kernel_predict (gpr_ fitted3) x_sample3)).
Proof.
  eexists. split; [vm_compute; reflexivity|].
  destruct (ExpectedImprovement_threshold exp erfc kernel_predict mt19937
              fitted3 [[0.25]] x_sample3 _ ltac:(vm_compute; reflexivity))
    as (t & Ht & Hin & _).
  exists t. split; assumption.
Defined.

(** C6 at a candidate of the scenario. *)
Lemma min_obj_value_witness :
  (within_bounds (bounds_ fitted3) [0.25] ->
   min_obj fitted3 x_sample3 [0.25] =
     (ei <- ExpectedImprovement fitted3 [[0.25]] x_sample3 ;;
      e <- coeff ei 0 ;;
      grad <- ApproxFPrime [0.25]
                (neg_acquisition exp erfc kernel_predict fitted3 x_sample3) (- e) ;;
      Some (- e, grad))) /\
  ((exists i xi bound,
      nth_error [0.25] i = Some xi /\ nth_error (bounds_ fitted3) i = Some bound /\
      outside bound xi = true) ->
   min_obj fitted3 x_sample3 [0.25] =
     (grad <- ApproxFPrime [0.25]
                (neg_acquisition exp erfc kernel_predict fitted3 x_sample3) DBL_MAX ;;
      Some (DBL_MAX, grad))).
Proof.
  apply (min_obj_value exp erfc kernel_predict ApproxFPrime mt19937
           fitted3 x_sample3 [0.25]).
  reflexivity.
Defined.

(** C7 on the scenario, 25 restarts. *)
Lemma ProposeLocation_best_witness :
  exists runs gen',
    restart_runs minimize draw (min_obj fitted3 x_sample3)
      (dists_ fitted3) (d_ fitted3) (Z.to_nat 25) (gen_ fitted3) = Some (runs, gen') /\
    exists x_next,
      ProposeLocation fitted3 x_sample3 y_sample3 25 = Some (x_next, set_gen fitted3 gen') /\
      (((forall r, In r runs -> (snd r <? DBL_MAX) = false) /\ x_next = Zero (d_ fitted3)) \/
       (exists k fx,
          nth_error runs k = Some (x_next, fx) /\
          (fx <? DBL_MAX) = true /\
          (forall r, In r runs -> (snd r <? fx) = false) /\
          (forall j r, (j < k)%nat -> nth_error runs j = Some r ->
             is_nan (snd r) = false -> (fx <? snd r) = true))).
Proof.
  eexists. eexists. split; [vm_compute; reflexivity|].
  apply (ProposeLocation_best exp erfc kernel_predict ApproxFPrime minimize
           mt19937 draw fitted3 x_sample3 y_sample3 25).
  vm_compute. reflexivity.
Defined.


(** C8: a fresh session and a used, cleared one, the random sources in one
    state and the stores holding the scenario's samples. *)
Lemma NextSample_deterministic_witness :
  NextSample (AddSamples (session0 (gen_ session_used)) samples3)
    = NextSample (AddSamples (Clear session_used) samples3) /\
  option_map fst (NextSample (AddSamples (session0 (gen_ session_used)) samples3))
    = option_map fst (NextSample (AddSamples (Clear session_used) samples3)).
Proof.
  apply (NextSample_deterministic exp erfc kernel_predict ApproxFPrime minimize
           mt19937 draw [(0, 1)] 1e-6 0.01 (gen_ session_used) 42%Z).
  - apply AddSamples_reachable. apply reach_new.
  - apply AddSamples_reachable. apply reach_Clear. exact session_used_reachable.
  - reflexivity.
  - reflexivity.
  - reflexivity.
Defined.

(** C9 on the used session. *)
Lemma Clear_as_fresh_witness :
  NextSample (AddSamples (Clear session_used) samples3) =
  NextSample (AddSamples
                (BayesianOptimization_new [(0, 1)] 1e-6 0.01 (gen_ session_used)) samples3).
Proof.
  apply (Clear_as_fresh exp erfc kernel_predict ApproxFPrime minimize
           mt19937 draw [(0, 1)] 1e-6 0.01 42%Z session_used samples3).
  exact session_used_reachable.
Defined.

(** A sweep of the scenario of the run below: deviation 1, greatest fitted
    mean 0, [xi = 0].  The value is not negative at these negative
    improvements, down to [-38.2]. *)
Lemma ExpectedImprovement_sweep :
  forallb
    (fun mu =>
       (mu - 0 - 0 <? 0)
       && (0 <=? expected_improvement_formula exp erfc 0 0 mu 1))
    [-0.01; -0.5; -1; -2; -3.5; -5; -8; -12; -17; -23; -30; -35; -37; -38; -38.2]
  = true.
Proof. vm_compute. reflexivity. Qed.




(** C9 as stated fails: a session that has proposed once, then cleared, and
    a fresh session with the same constructor arguments propose different
    points from the same sample, because [Clear] leaves the random source
    where it is. *)
Lemma Clear_keeps_random_source :
  reachable exp erfc kernel_predict ApproxFPrime minimize draw
    [(0, 1)] 1e-6 0.01 42%Z session_used /\
  exists p p',
    option_map fst (NextSample (AddSamples (Clear session_used) [([0.5], [2])]))
      = Some [p] /\
    option_map fst (NextSample (AddSamples (session0 42%Z) [([0.5], [2])]))
      = Some [p'] /\
    (p =? p') = false /\ p <> p'.
Proof.
  split; [exact session_used_reachable|].
  eexists. eexists. split; [vm_compute; reflexivity|].
  split; [vm_compute; reflexivity|].
  split; [vm_compute; reflexivity|].
  match goal with
  | |- ?a <> ?b =>
      intros H; assert (E : (a =? b) = false) by (vm_compute; reflexivity);
      rewrite H in E; vm_compute in E; discriminate
  end.
Qed.


End Runs.

(** ** Further properties: the stores, the start points, the random source *)

Lemma set_coeff_spec (v : vector) (i : nat) (a : float) :
  (i < length v)%nat ->
  exists v',
    set_coeff v i a = Some v' /\ length v' = length v /\
    nth_error v' i = Some a /\
    (forall k, k <> i -> nth_error v' k = nth_error v k).
Proof.
  revert i. induction v as [|b v IH]; intros [|i] H; simpl in *; try lia.
  - eexists. repeat split. intros [|k] Hk; [congruence|reflexivity].
  - destruct (IH i) as (v' & Hs & Hl & Hi & Hk); [lia|].
    rewrite Hs. simpl. eexists. split; [reflexivity|]. simpl.
    split; [now rewrite Hl|]. split; [exact Hi|].
    intros [|k] Hne; [reflexivity|]. simpl. apply Hk. congruence.
Qed.

Lemma nth_error_GetDistributions (bounds : list (float * float)) (j : nat) :
  nth_error (GetDistributions bounds) j =
  option_map (fun bound => mkDist (fst bound) (snd bound)) (nth_error bounds j).
Proof. unfold GetDistributions. apply nth_error_map. Qed.

Lemma fill_rows_spec (cols : nat) (rows : list vector) (m : matrix) :
  fill_rows cols rows = Some m <->
  m = rows /\ Forall (fun r => length r = cols) rows.
Proof.
  revert m. induction rows as [|r rows IH]; intros m; simpl.
  - split.
    + intros H. inversion H. auto.
    + intros [-> _]. reflexivity.
  - destruct (Nat.eqb_spec (length r) cols) as [E|E].
    + split.
      * intros H. apply bind_Some in H as (m' & Hm & H). inversion H; subst.
        apply IH in Hm as [-> Hall]. split; [reflexivity|]. now constructor.
      * intros [-> Hall]. inversion Hall; subst.
        assert (Hm : fill_rows (length r) rows = Some rows) by (apply IH; auto).
        now rewrite Hm.
    + split; [discriminate|]. intros [_ Hall]. inversion Hall; subst. congruence.
Qed.

Lemma length_cwise2 {A B C : Type} (op : A -> B -> C) u v :
  length (cwise2 op u v) = Nat.min (length u) (length v).
Proof.
  revert v. induction u as [|a u IH]; intros [|b v]; simpl; auto.
Qed.

Lemma SFcompare_opp x y :
  SFcompare (SFopp x) (SFopp y) = SFcompare y x.
Proof.
  destruct x as [[]|[]| |[] mx ex], y as [[]|[]| |[] my ey]; simpl; try reflexivity;
    FloatOrder.cases_compare; simpl; try reflexivity; subst; try lia.
Qed.

Lemma ltb_opp a b : (- a <? - b) = (b <? a).
Proof.
  rewrite !ltb_spec, !opp_spec. unfold SFltb. now rewrite SFcompare_opp.
Qed.

Lemma ltb_nan_l a b : is_nan a = true -> (a <? b) = false.
Proof.
  intros H. apply not_true_is_false. intros L.
  destruct (FloatFacts.ltb_not_nan _ _ L). congruence.
Qed.

Lemma ltb_nan_r a b : is_nan b = true -> (a <? b) = false.
Proof.
  intros H. apply not_true_is_false. intros L.
  destruct (FloatFacts.ltb_not_nan _ _ L). congruence.
Qed.

Section Coverage.

Variables exp erfc : float -> float.
Variable kernel_predict :
  float -> option (matrix * matrix) -> matrix -> vector * vector.
Variable ApproxFPrime : vector -> (vector -> option float) -> float -> option vector.
Variable minimize :
  LBFGSParam -> (vector -> option (float * vector)) -> vector -> option (vector * float).
Variable mt19937 : Type.
Variable draw : uniform_real_distribution -> mt19937 -> float * mt19937.

Local Abbreviation session := (BayesianOptimization mt19937).
Local Abbreviation predict := (Predict kernel_predict).
Local Abbreviation EI := (ExpectedImprovement exp erfc kernel_predict).
Local Abbreviation objective := (min_obj exp erfc kernel_predict ApproxFPrime).
Local Abbreviation Propose := (ProposeLocation exp erfc kernel_predict ApproxFPrime minimize draw).
Local Abbreviation Next := (NextSample exp erfc kernel_predict ApproxFPrime minimize draw).
Local Abbreviation reach := (reachable exp erfc kernel_predict ApproxFPrime minimize draw).

(** *** The start point of a restart *)

Lemma draw_start_spec (dists : list uniform_real_distribution) (j n : nat)
  (x : vector) (gen : mt19937) :
  (j + n <= length dists)%nat -> (j + n <= length x)%nat ->
  exists x' gen',
    draw_start draw dists j n x gen = Some (x', gen') /\
    length x' = length x /\
    gen' = draw_all draw (firstn n (skipn j dists)) gen /\
    (forall k, (k < j)%nat -> nth_error x' k = nth_error x k) /\
    (forall k, (j <= k < j + n)%nat ->
       exists dist g,
         nth_error dists k = Some dist /\ nth_error x' k = Some (fst (draw dist g))).
Proof.
  revert j x gen. induction n as [|n IH]; intros j x gen Hd Hx; simpl.
  - exists x, gen. repeat split; auto. intros k Hk. lia.
  - destruct (nth_error dists j) as [dist|] eqn:Ed.
    2:{ apply nth_error_None in Ed. lia. }
    simpl. destruct (draw dist gen) as [v gen1] eqn:Ev.
    destruct (set_coeff_spec x j v) as (x1 & Hs & Hl1 & Hj & Hk1); [lia|].
    rewrite Hs. simpl.
    destruct (IH (S j) x1 gen1) as (x' & gen' & Hrun & Hl & Hg & Hlow & Hnew);
      [lia|lia|].
    exists x', gen'. split; [exact Hrun|]. split; [congruence|]. split.
    + rewrite (skipn_nth_error_Some _ _ _ Ed). simpl.
      unfold draw_all in *. simpl. now rewrite Ev.
    + split.
      * intros k Hk. rewrite Hlow by lia. apply Hk1. lia.
      * intros k Hk. destruct (Nat.eq_dec k j) as [->|Hne].
        -- exists dist, gen. split; [exact Ed|].
           rewrite Hlow by lia. now rewrite Hj, Ev.
        -- apply Hnew. lia.
Qed.

(** X1: in a session reached through the interface the loop that draws a
    start point reads [dists_] in range at every index below [d_]: it
    returns a point, of length [d_], from any state of the random source. *)
Theorem start_point_drawn bounds alpha xi gen0 (s : session) (gen : mt19937) :
  reachable exp erfc kernel_predict ApproxFPrime minimize draw bounds alpha xi gen0 s ->
  exists x0 gen',
    draw_start draw (dists_ s) 0 (d_ s) (Zero (d_ s)) gen = Some (x0, gen') /\
    length x0 = d_ s.
Proof.
  intros R.
  destruct (reachable_fields _ _ _ _ _ _ _ _ _ _ _ _ R) as (Hd & Hb & _ & Hds & _).
  destruct (draw_start_spec (dists_ s) 0 (d_ s) (Zero (d_ s)) gen)
    as (x0 & gen' & Hrun & Hl & _).
  - rewrite Hds, Hd. unfold GetDistributions. rewrite length_map. lia.
  - unfold Zero. rewrite repeat_length. lia.
  - exists x0, gen'. split; [exact Hrun|].
    rewrite Hl. unfold Zero. apply repeat_length.
Qed.

Lemma draw_start_within bounds alpha xi gen0 (s : session) (gen : mt19937)
  (x0 : vector) (gen' : mt19937) :
  reachable exp erfc kernel_predict ApproxFPrime minimize draw bounds alpha xi gen0 s ->
  (forall dist g, In dist (dists_ s) ->
     inside (dist_a dist, dist_b dist) (fst (draw dist g)) = true) ->
  draw_start draw (dists_ s) 0 (d_ s) (Zero (d_ s)) gen = Some (x0, gen') ->
  within_bounds (bounds_ s) x0 /\ length x0 = length (bounds_ s).
Proof.
  intros R Hdraw Hrun.
  destruct (reachable_fields _ _ _ _ _ _ _ _ _ _ _ _ R) as (Hd & Hb & _ & Hds & _).
  assert (Hlen : length (dists_ s) = d_ s).
  { rewrite Hds, Hd. unfold GetDistributions. apply length_map. }
  destruct (draw_start_spec (dists_ s) 0 (d_ s) (Zero (d_ s)) gen)
    as (x1 & gen1 & Hrun1 & Hl & _ & _ & Hnew).
  { lia. }
  { unfold Zero. rewrite repeat_length. lia. }
  rewrite Hrun in Hrun1. inversion Hrun1; subst x1 gen1. clear Hrun1.
  assert (Hx0 : length x0 = d_ s).
  { rewrite Hl. unfold Zero. apply repeat_length. }
  split; [|rewrite Hx0, Hb, Hd; reflexivity].
  intros k xk bound Hk Hbk.
  assert (Hlt : (k < d_ s)%nat).
  { rewrite <- Hx0. apply nth_error_Some. congruence. }
  destruct (Hnew k) as (dist & g & Hdist & Hv); [lia|].
  rewrite Hk in Hv. inversion Hv; subst xk.
  pose proof (Hdraw dist g (nth_error_In _ _ Hdist)) as Hin.
  rewrite Hb in Hbk.
  rewrite Hds, nth_error_GetDistributions, Hbk in Hdist.
  simpl in Hdist. inversion Hdist; subst dist. exact Hin.
Qed.

(** X2: when the random source draws within [[a, b]] for the session's
    distributions, the start point of a restart lies within the bounds and
    CheckBounds accepts it. *)
Theorem start_point_feasible bounds alpha xi gen0 (s : session) (gen : mt19937)
  (x0 : vector) (gen' : mt19937) :
  reachable exp erfc kernel_predict ApproxFPrime minimize draw bounds alpha xi gen0 s ->
  (forall dist g, In dist (dists_ s) ->
     inside (dist_a dist, dist_b dist) (fst (draw dist g)) = true) ->
  draw_start draw (dists_ s) 0 (d_ s) (Zero (d_ s)) gen = Some (x0, gen') ->
  within_bounds (bounds_ s) x0 /\ CheckBounds s x0 = Some true.
Proof.
  intros R Hdraw Hrun.
  destruct (draw_start_within _ _ _ _ _ _ _ _ R Hdraw Hrun) as [W Hlen].
  split; [exact W|].
  rewrite CheckBounds_zip, check_zip_short by lia.
  now rewrite (feasible_prefix_within _ _ W).
Qed.

(** *** The random source *)

Lemma restart_runs_gen objective0 dists d n (gen : mt19937) runs gen' :
  d = length dists ->
  restart_runs minimize draw objective0 dists d n gen = Some (runs, gen') ->
  gen' = advance draw dists n gen.
Proof.
  intros Hd. revert gen runs gen'.
  induction n as [|n IH]; intros gen runs gen'; simpl.
  - intros H. now inversion H.
  - intros H.
    apply bind_Some in H as ([x0 gen1] & Hstart & H).
    apply bind_Some in H as (r0 & _ & H).
    apply bind_Some in H as ([rs gen2] & Hrs & H).
    inversion H; subst gen2. clear H.
    destruct (draw_start_spec dists 0 d (Zero d) gen)
      as (x1 & g1 & Hrun & _ & Hg & _).
    { lia. }
    { unfold Zero. rewrite repeat_length. lia. }
    rewrite Hstart in Hrun. injection Hrun as Hx Hgen.
    simpl in Hg. rewrite Hd, firstn_all in Hg.
    rewrite <- Hg, <- Hgen. eapply IH. exact Hrs.
Qed.

(** X3: a successful NextSample leaves the random source where 25 rounds of
    one draw per dimension, in the order of the dimensions, put it: the
    samples, the surrogate and the solver do not touch it. *)
Theorem NextSample_advances_random_source bounds alpha xi gen0
  (s : session) (x : vector) (s' : session) :
  reachable exp erfc kernel_predict ApproxFPrime minimize draw bounds alpha xi gen0 s ->
  NextSample exp erfc kernel_predict ApproxFPrime minimize draw s = Some (x, s') ->
  gen_ s' = advance draw (dists_ s) (Z.to_nat default_n_restarts) (gen_ s).
Proof.
  intros R H.
  destruct (reachable_fields _ _ _ _ _ _ _ _ _ _ _ _ R) as (Hd & Hb & _ & Hds & _).
  unfold NextSample in H.
  apply bind_Some in H as (xs & _ & H).
  apply bind_Some in H as (ys & _ & H).
  unfold ProposeLocation in H. rewrite restart_loop_runs in H.
  apply bind_Some in H as ([x1 gen1] & H & Hret). inversion Hret; subst. clear Hret.
  apply bind_Some in H as ([runs gen2] & Hruns & H). inversion H; subst. clear H.
  cbn [d_ dists_ gen_ set_gpr set_gen] in *.
  eapply restart_runs_gen; [|exact Hruns].
  rewrite Hds, Hd. unfold GetDistributions. now rewrite length_map.
Qed.

(** *** The sample stores *)

(** X4: in every session reached through the interface the two stores hold
    the same number of entries. *)
Theorem reachable_stores_aligned bounds alpha xi gen0 (s : session) :
  reachable exp erfc kernel_predict ApproxFPrime minimize draw bounds alpha xi gen0 s ->
  length (x_samples_ s) = length (y_samples_ s).
Proof.
  induction 1 as [|s x y _ IH|s _ IH|s x s' _ IH Hn]; simpl.
  - reflexivity.
  - rewrite !length_app, IH. reflexivity.
  - reflexivity.
  - destruct (NextSample_state _ _ _ _ _ _ _ _ _ _ Hn) as (_ & _ & _ & _ & _ & Hx & Hy).
    congruence.
Qed.

(** X5: AddSample appends: after a sequence of calls the stores are the old
    stores followed by the new inputs and outputs in call order, every
    earlier entry stays at its index, and nothing else of the session
    changes. *)
Theorem AddSamples_appends (s : session) (samples : list (vector * vector)) :
  x_samples_ (AddSamples s samples) = x_samples_ s ++ map fst samples /\
  y_samples_ (AddSamples s samples) = y_samples_ s ++ map snd samples /\
  (forall i v, nth_error (x_samples_ s) i = Some v ->
     nth_error (x_samples_ (AddSamples s samples)) i = Some v) /\
  Clear (AddSamples s samples) = Clear s.
Proof.
  destruct (AddSamples_fields _ s samples)
    as (Hd & Hb & Hx & Hds & Hg & Hp & Hxs & Hys).
  simpl in *. repeat split; auto.
  - intros i v Hi. rewrite Hxs. rewrite nth_error_app1; [exact Hi|].
    apply nth_error_Some. congruence.
  - unfold Clear. now rewrite Hd, Hb, Hx, Hds, Hg, Hp.
Qed.

(** *** NextSample *)

(** X7: a successful NextSample refits the surrogate to exactly the stored
    samples, in store order, and keeps [alpha]; the stores, the bounds and
    [xi] are as before. *)
Theorem NextSample_refits (s : session) (x : vector) (s' : session) :
  NextSample exp erfc kernel_predict ApproxFPrime minimize draw s = Some (x, s') ->
  gpr_ s' = Fit (gpr_ s) (x_samples_ s) (y_samples_ s) /\
  fitted_ (gpr_ s') = Some (x_samples_ s, y_samples_ s) /\
  alpha_ (gpr_ s') = alpha_ (gpr_ s) /\
  x_samples_ s' = x_samples_ s /\ y_samples_ s' = y_samples_ s /\
  bounds_ s' = bounds_ s /\ xi_ s' = xi_ s.
Proof.
  unfold NextSample, ProposeLocation. intros H.
  apply bind_Some in H as (xs & Hxs & H).
  apply bind_Some in H as (ys & Hys & H).
  apply bind_Some in H as ([x1 gen1] & _ & H). inversion H; subst. clear H.
  apply fill_rows_spec in Hxs as [-> _]. apply fill_rows_spec in Hys as [-> _].
  simpl. repeat split; reflexivity.
Qed.

Lemma restart_runs_starts objective0 dists d n (gen : mt19937) runs gen' :
  restart_runs minimize draw objective0 dists d n gen = Some (runs, gen') ->
  forall r, In r runs ->
    exists x0 g g',
      draw_start draw dists 0 d (Zero d) g = Some (x0, g') /\
      minimize solver_param objective0 x0 = Some r.
Proof.
  revert gen runs gen'. induction n as [|n IH]; intros gen runs gen'; simpl.
  - intros H. inversion H; subst. intros r [].
  - intros H.
    apply bind_Some in H as ([x0 gen1] & Hstart & H).
    apply bind_Some in H as (r0 & Hr0 & H).
    apply bind_Some in H as ([rs gen2] & Hrs & H).
    inversion H; subst. intros r [<-|Hr].
    + exists x0, gen, gen1. auto.
    + eapply IH; eassumption.
Qed.

(** X8: when the solver returns a point of the length of its start point,
    the proposal of NextSample has exactly [d_] coefficients. *)
Theorem NextSample_dimension bounds alpha xi gen0
  (s : session) (x : vector) (s' : session) :
  reachable exp erfc kernel_predict ApproxFPrime minimize draw bounds alpha xi gen0 s ->
  (forall (s1 : session) x_sample x0 x1 fx,
     minimize solver_param
       (min_obj exp erfc kernel_predict ApproxFPrime s1 x_sample) x0 = Some (x1, fx) ->
     length x1 = length x0) ->
  NextSample exp erfc kernel_predict ApproxFPrime minimize draw s = Some (x, s') ->
  length x = d_ s.
Proof.
  intros R Hsolver H.
  destruct (reachable_fields _ _ _ _ _ _ _ _ _ _ _ _ R) as (Hd & Hb & _ & Hds & _).
  unfold NextSample in H.
  apply bind_Some in H as (xs & _ & H).
  apply bind_Some in H as (ys & _ & H).
  unfold ProposeLocation in H. rewrite restart_loop_runs in H.
  apply bind_Some in H as ([x1 gen1] & H & Hret). inversion Hret; subst. clear Hret.
  apply bind_Some in H as ([runs gen2] & Hruns & H). inversion H; subst. clear H.
  cbn [d_ dists_ gen_ set_gpr] in *.
  destruct (best_run_spec runs (Zero (d_ s), DBL_MAX) eq_refl)
    as [[_ Hbest]|(k & Hk & _)].
  - rewrite Hbest. simpl. unfold Zero. apply repeat_length.
  - destruct (restart_runs_starts _ _ _ _ _ _ _ Hruns _ (nth_error_In _ _ Hk))
      as (x0 & g & g' & Hstart & Hmin).
    rewrite (surjective_pairing (best_run runs (Zero (d_ s), DBL_MAX))) in Hmin.
    rewrite (Hsolver _ _ _ _ _ Hmin).
    destruct (draw_start_spec (dists_ s) 0 (d_ s) (Zero (d_ s)) g)
      as (x2 & g2 & Hrun & Hl & _).
    + rewrite Hds, Hd. unfold GetDistributions. rewrite length_map. lia.
    + unfold Zero. rewrite repeat_length. lia.
    + rewrite Hstart in Hrun. inversion Hrun; subst.
      rewrite Hl. unfold Zero. apply repeat_length.
Qed.

(** *** ExpectedImprovement *)

(** X10: the surrogate returning one mean and one deviation per query row
    and at least one fitted mean, ExpectedImprovement returns one value per
    query row. *)
Theorem ExpectedImprovement_one_per_query (s : session) (x x_sample : matrix) :
  length (fst (Predict kernel_predict (gpr_ s) x)) = length x ->
  length (snd (Predict kernel_predict (gpr_ s) x)) = length x ->
  fst (Predict kernel_predict (gpr_ s) x_sample) <> [] ->
  exists ei,
    ExpectedImprovement exp erfc kernel_predict s x x_sample = Some ei /\
    length ei = length x.
Proof.
  intros Hmu Hsigma Hne. rewrite ExpectedImprovement_eq.
  destruct (fst (predict (gpr_ s) x_sample)) as [|a v] eqn:E; [congruence|].
  simpl. eexists. split; [reflexivity|].
  rewrite length_cwise2, Hmu, Hsigma. apply Nat.min_id.
Qed.

(** *** CheckBounds *)

(** X11: CheckBounds does not reject a coordinate that is not a number: a
    vector of NaN coordinates, no longer than the bounds, is accepted. *)
Theorem CheckBounds_accepts_nan (s : session) (x : vector) :
  (length x <= length (bounds_ s))%nat ->
  Forall (fun xi => is_nan xi = true) x ->
  CheckBounds s x = Some true.
Proof.
  intros Hlen Hnan. rewrite CheckBounds_zip, check_zip_short by exact Hlen.
  f_equal. unfold feasible_prefix. clear Hlen.
  revert Hnan. generalize (bounds_ s) as bounds.
  induction x as [|xi x IH]; intros [|bound bounds] Hnan; simpl; auto.
  inversion Hnan; subst. unfold outside.
  rewrite ltb_nan_l, ltb_nan_r by assumption. simpl. now apply IH.
Qed.

(** X12: with an inverted bound ([high < low]) in a dimension, CheckBounds
    rejects every vector of the session's reach whose coordinate in that
    dimension is a number. *)
Theorem CheckBounds_inverted_bound (s : session) (x : vector)
  (i : nat) (xi : float) (bound : float * float) :
  (length x <= length (bounds_ s))%nat ->
  nth_error x i = Some xi ->
  nth_error (bounds_ s) i = Some bound ->
  (snd bound <? fst bound) = true ->
  is_nan xi = false ->
  CheckBounds s x = Some false.
Proof.
  intros Hlen Hx Hb Hinv Hn.
  rewrite CheckBounds_zip, check_zip_short by exact Hlen. f_equal.
  apply (feasible_prefix_outside _ _ _ _ _ Hx Hb).
  unfold outside. destruct (xi <? fst bound) eqn:E; [reflexivity|]. simpl.
  destruct (FloatFacts.ltb_not_nan _ _ Hinv) as [_ Hlo].
  apply FloatFacts.ltb_leb_trans with (fst bound); [exact Hinv|].
  now apply FloatFacts.not_ltb_leb.
Qed.

(** X13: feasibility is monotone in the box: a vector CheckBounds accepts is
    accepted under bounds that contain the session's bounds dimension by
    dimension. *)
Theorem CheckBounds_widening (s s' : session) (x : vector) :
  Forall2 bound_within (bounds_ s) (bounds_ s') ->
  CheckBounds s x = Some true ->
  CheckBounds s' x = Some true.
Proof.
  rewrite !CheckBounds_zip. generalize (bounds_ s) as bounds, (bounds_ s') as bounds'.
  induction x as [|xi x IH]; intros bounds bounds' Hw; simpl; [reflexivity|].
  destruct Hw as [|b b' bounds bounds' [Hlo Hhi] Hw]; [discriminate|].
  destruct (outside b xi) eqn:Eo; [discriminate|].
  intros H. unfold outside in *. apply orb_false_elim in Eo as [El Eh].
  assert (El' : (xi <? fst b') = false).
  { apply not_true_is_false. intros L.
    rewrite (FloatFacts.ltb_leb_trans _ _ _ L Hlo) in El. discriminate. }
  assert (Eh' : (snd b' <? xi) = false).
  { apply not_true_is_false. intros L.
    rewrite (FloatFacts.leb_ltb_trans _ _ _ Hhi L) in Eh. discriminate. }
  rewrite El', Eh'. simpl. now apply (IH bounds bounds').
Qed.

(** *** The proposal and the acquisition function *)

Lemma objective_inside_value (s : session) (x_sample : matrix) (x : vector)
  (fx : float) (grad : vector) :
  objective s x_sample x = Some (fx, grad) ->
  CheckBounds s x = Some true ->
  exists ei e,
    EI s [x] x_sample = Some ei /\ coeff ei 0 = Some e /\ fx = - e.
Proof.
  unfold min_obj. intros H Hcb. rewrite Hcb in H. simpl in H.
  apply bind_Some in H as (f0 & Hf0 & H).
  apply bind_Some in H as (g & _ & H). inversion H; subst. clear H.
  unfold neg_acquisition in Hf0.
  apply bind_Some in Hf0 as (ei & Hei & Hf0).
  apply bind_Some in Hf0 as (e & He & Hf0). inversion Hf0; subst.
  exists ei, e. auto.
Qed.

(** X14: the solver reporting the objective's value at the point it
    returns, the proposal maximises the acquisition function over the
    restarts: unless no restart went below the largest double (and the zero
    vector is returned), the acquisition value at the proposal is exceeded
    by the value at no restart's final point that CheckBounds accepts. *)
Theorem ProposeLocation_maximises (s : session) (x_sample y_sample : matrix)
  (n_restarts : Z) (runs : list (vector * float)) (gen' : mt19937)
  (x_next : vector) (s' : session)
  (xj : vector) (fxj : float) (eij : vector) (ej : float) :
  (forall obj x0 x1 fx,
     minimize solver_param obj x0 = Some (x1, fx) -> exists grad, obj x1 = Some (fx, grad)) ->
  restart_runs minimize draw
    (min_obj exp erfc kernel_predict ApproxFPrime s x_sample)
    (dists_ s) (d_ s) (Z.to_nat n_restarts) (gen_ s) = Some (runs, gen') ->
  ProposeLocation exp erfc kernel_predict ApproxFPrime minimize draw
    s x_sample y_sample n_restarts = Some (x_next, s') ->
  In (xj, fxj) runs ->
  CheckBounds s xj = Some true ->
  ExpectedImprovement exp erfc kernel_predict s [xj] x_sample = Some eij ->
  coeff eij 0 = Some ej ->
  ((forall r, In r runs -> (snd r <? DBL_MAX) = false) /\ x_next = Zero (d_ s)) \/
  (exists ei e,
     ExpectedImprovement exp erfc kernel_predict s [x_next] x_sample = Some ei /\
     coeff ei 0 = Some e /\
     (e <? ej) = false).
Proof.
  intros Hsolver Hruns H Hin Hcbj Heij Hej.
  unfold ProposeLocation in H. rewrite restart_loop_runs, Hruns in H.
  simpl in H. inversion H; subst x_next s'. clear H.
  pose proof Hruns as Hmin. apply restart_runs_minimize in Hmin as [_ Hmin].
  destruct (best_run_spec runs (Zero (d_ s), DBL_MAX) eq_refl)
    as [[Hnone Hbest]|(k & Hk & Hlt & Hlow & _)].
  - left. split; [exact Hnone|]. now rewrite Hbest.
  - right.
    destruct (Hmin _ (nth_error_In _ _ Hk)) as [x0 Hx0].
    rewrite (surjective_pairing (best_run runs (Zero (d_ s), DBL_MAX))) in Hx0.
    destruct (Hsolver _ _ _ _ Hx0) as [grad Hobj].
    assert (Hcb : CheckBounds s (fst (best_run runs (Zero (d_ s), DBL_MAX))) = Some true)
      by (eapply objective_below_max; [exact Hobj|exact Hlt]).
    destruct (objective_inside_value _ _ _ _ _ Hobj Hcb) as (ei & e & Hei & He & Hfx).
    exists ei, e. split; [exact Hei|]. split; [exact He|].
    destruct (Hmin _ Hin) as [x0j Hx0j].
    destruct (Hsolver _ _ _ _ Hx0j) as [gradj Hobjj].
    destruct (objective_inside_value _ _ _ _ _ Hobjj Hcbj) as (ei' & e' & Hei' & He' & Hfxj).
    rewrite Heij in Hei'. inversion Hei'; subst ei'.
    rewrite Hej in He'. inversion He'; subst e'.
    specialize (Hlow _ Hin). simpl in Hlow.
    rewrite Hfx, Hfxj, ltb_opp in Hlow. exact Hlow.
Qed.

End Coverage.

(** ** Runs of the further properties *)

Module CoverageRuns.
Import Concrete.

Set Warnings "-inexact-float".

Local Abbreviation EI :=
  (ExpectedImprovement exp erfc kernel_predict (mt19937 := mt19937)).
Local Abbreviation objective :=
  (min_obj exp erfc kernel_predict ApproxFPrime (mt19937 := mt19937)).
Local Abbreviation Propose :=
  (ProposeLocation exp erfc kernel_predict ApproxFPrime minimize draw).
Local Abbreviation Next :=
  (NextSample exp erfc kernel_predict ApproxFPrime minimize draw).

(** Two dimensions, bounded by [0, 1] and [-1, 1]. *)
Definition session2d : BayesianOptimization mt19937 :=
  BayesianOptimization_new [(0, 1); (-1, 1)] 1e-6 0.01 42%Z.

Lemma clamp_inside a b v :
  (a <=? b) = true -> inside (a, b) (clamp a b v) = true.
Proof.
  intros Hab. destruct (FloatFacts.leb_not_nan _ _ Hab) as [Ha Hb].
  unfold clamp, inside. cbn [fst snd].
  destruct (a <=? v) eqn:E1; [destruct (v <=? b) eqn:E2|].
  - now rewrite E1, E2.
  - now rewrite Hab, (FloatFacts.leb_refl _ Hb).
  - now rewrite Hab, (FloatFacts.leb_refl _ Ha).
Qed.

Lemma draw_clamped_inside (dists : list uniform_real_distribution) :
  Forall (fun dist => (dist_a dist <=? dist_b dist) = true) dists ->
  forall dist g, In dist dists ->
    inside (dist_a dist, dist_b dist) (fst (draw_clamped dist g)) = true.
Proof.
  intros Hall dist g Hin. rewrite Forall_forall in Hall.
  unfold draw_clamped. destruct (draw dist g) as [v gen']. cbn [fst].
  apply clamp_inside. now apply Hall.
Qed.

Lemma ApproxFPrime_loop_length f f0 x k n grad :
  ApproxFPrime_loop f f0 x k n = Some grad -> length grad = n.
Proof.
  revert k grad. induction n as [|n IH]; intros k grad; simpl.
  - intros H. now inversion H.
  - intros H.
    apply bind_Some in H as (xk & _ & H).
    apply bind_Some in H as (x' & _ & H).
    apply bind_Some in H as (fk & _ & H).
    apply bind_Some in H as (rest & Hrest & H).
    inversion H; subst. simpl. now rewrite (IH _ _ Hrest).
Qed.

Lemma min_obj_gradient_length (s : BayesianOptimization mt19937) x_sample x fx grad :
  objective s x_sample x = Some (fx, grad) -> length grad = length x.
Proof.
  unfold min_obj. intros H.
  apply bind_Some in H as (b & _ & H).
  apply bind_Some in H as (f0 & _ & H).
  apply bind_Some in H as (g & Hg & H). inversion H; subst.
  now apply ApproxFPrime_loop_length in Hg.
Qed.

Lemma descend_length eps (obj : vector -> option (float * vector)) k :
  (forall x fx grad, obj x = Some (fx, grad) -> length grad = length x) ->
  forall x fx grad x1 fx1,
    length grad = length x ->
    descend eps obj k x fx grad = Some (x1, fx1) -> length x1 = length x.
Proof.
  intros Hobj. induction k as [|k IH]; intros x fx grad x1 fx1 Hlen; simpl.
  - intros H. now inversion H.
  - destruct (norm grad <=? _).
    + intros H. now inversion H.
    + intros H. apply bind_Some in H as ([fx' grad'] & Hobj' & H).
      apply IH in H; [|exact (Hobj _ _ _ Hobj')].
      rewrite H, length_cwise2, Hlen. apply Nat.min_id.
Qed.

(** The descent solver returns a point of the start point's length when the
    objective's gradient has the length of its argument. *)
Lemma minimize_length param (obj : vector -> option (float * vector)) x0 x1 fx :
  (forall x fx grad, obj x = Some (fx, grad) -> length grad = length x) ->
  minimize param obj x0 = Some (x1, fx) -> length x1 = length x0.
Proof.
  intros Hobj H. unfold minimize in H.
  apply bind_Some in H as ([fx0 grad0] & Hobj0 & H).
  eapply descend_length; [exact Hobj|exact (Hobj _ _ _ Hobj0)|exact H].
Qed.

(** X1 in two dimensions. *)
Lemma start_point_drawn_witness :
  exists x0 gen',
    draw_start draw (dists_ session2d) 0 (d_ session2d) (Zero (d_ session2d)) 7%Z
      = Some (x0, gen') /\
    length x0 = d_ session2d.
Proof.
  apply (start_point_drawn exp erfc kernel_predict ApproxFPrime minimize mt19937 draw
           [(0, 1); (-1, 1)] 1e-6 0.01 42%Z session2d 7%Z).
  apply reach_new.
Defined.

(** X2 in two dimensions, the draws clamped to the bounds. *)
Lemma start_point_feasible_witness :
  exists x0 gen',
    draw_start draw_clamped (dists_ session2d) 0 (d_ session2d) (Zero (d_ session2d)) 7%Z
      = Some (x0, gen') /\
    within_bounds (bounds_ session2d) x0 /\
    CheckBounds session2d x0 = Some true.
Proof.
  eexists. eexists. split; [vm_compute; reflexivity|].
  eapply (start_point_feasible exp erfc kernel_predict ApproxFPrime minimize mt19937
           draw_clamped [(0, 1); (-1, 1)] 1e-6 0.01 42%Z session2d 7%Z).
  - apply reach_new.
  - apply draw_clamped_inside. repeat constructor.
  - vm_compute. reflexivity.
Defined.

(** X3 on the session with one sample. *)
Lemma NextSample_advances_random_source_witness :
  exists x s',
    Next (session1 42%Z) = Some (x, s') /\
    gen_ s' = advance draw (dists_ (session1 42%Z)) (Z.to_nat default_n_restarts)
                (gen_ (session1 42%Z)).
Proof.
  eexists. eexists. split; [vm_compute; reflexivity|].
  eapply (NextSample_advances_random_source exp erfc kernel_predict ApproxFPrime minimize
            mt19937 draw [(0, 1)] 1e-6 0.01 42%Z (session1 42%Z)).
  - apply (reach_AddSample exp erfc kernel_predict ApproxFPrime minimize mt19937 draw
             [(0, 1)] 1e-6 0.01 42%Z (session0 42%Z) [0.5] [2]).
    apply reach_new.
  - vm_compute. reflexivity.
Defined.

(** X4 on a session that proposed, was cleared and took the scenario's
    samples. *)
Lemma reachable_stores_aligned_witness :
  length (x_samples_ (AddSamples (Clear session_used) samples3)) =
  length (y_samples_ (AddSamples (Clear session_used) samples3)).
Proof.
  apply (reachable_stores_aligned exp erfc kernel_predict ApproxFPrime minimize mt19937
           draw [(0, 1)] 1e-6 0.01 42%Z).
  apply Runs.AddSamples_reachable. apply reach_Clear.
  exact Runs.session_used_reachable.
Defined.

(** X7 on the scenario. *)
Lemma NextSample_refits_witness :
  exists x s',
    Next (session3 42%Z) = Some (x, s') /\
    gpr_ s' = Fit (gpr_ (session3 42%Z))
                (x_samples_ (session3 42%Z)) (y_samples_ (session3 42%Z)) /\
    fitted_ (gpr_ s') = Some (x_samples_ (session3 42%Z), y_samples_ (session3 42%Z)) /\
    alpha_ (gpr_ s') = alpha_ (gpr_ (session3 42%Z)) /\
    x_samples_ s' = x_samples_ (session3 42%Z) /\
    y_samples_ s' = y_samples_ (session3 42%Z) /\
    bounds_ s' = bounds_ (session3 42%Z) /\
    xi_ s' = xi_ (session3 42%Z).
Proof.
  eexists. eexists. split; [vm_compute; reflexivity|].
  eapply (NextSample_refits exp erfc kernel_predict ApproxFPrime minimize mt19937 draw
            (session3 42%Z)).
  vm_compute. reflexivity.
Defined.

(** X8 on the scenario, with the descent solver. *)
Lemma NextSample_dimension_witness :
  exists x s',
    Next (session3 42%Z) = Some (x, s') /\
    length x = d_ (session3 42%Z).
Proof.
  eexists. eexists. split; [vm_compute; reflexivity|].
  eapply (NextSample_dimension exp erfc kernel_predict ApproxFPrime minimize mt19937 draw
            [(0, 1)] 1e-6 0.01 42%Z (session3 42%Z)).
  - apply (Runs.AddSamples_reachable [(0, 1)] 1e-6 0.01 42%Z (session0 42%Z) samples3).
    apply reach_new.
  - intros s1 x_sample x0 x1 fx. apply minimize_length.
    intros x fx0 grad. apply min_obj_gradient_length.
  - vm_compute. reflexivity.
Defined.

(** X10 at two query points of the scenario. *)
Lemma ExpectedImprovement_one_per_query_witness :
  exists ei,
    EI fitted3 [[0.25]; [0.5]] x_sample3 = Some ei /\
    length ei = length [[0.25]; [0.5]].
Proof.
  apply (ExpectedImprovement_one_per_query exp erfc kernel_predict mt19937
           fitted3 [[0.25]; [0.5]] x_sample3).
  - reflexivity.
  - reflexivity.
  - vm_compute. discriminate.
Defined.

(** X11: the candidate whose coordinate is not a number. *)
Lemma CheckBounds_accepts_nan_witness :
  CheckBounds (session0 42%Z) [nan] = Some true.
Proof.
  apply (CheckBounds_accepts_nan mt19937 (session0 42%Z) [nan]).
  - simpl. lia.
  - constructor; [reflexivity|constructor].
Defined.

(** X12: the bound [2, 1]. *)
Lemma CheckBounds_inverted_bound_witness :
  CheckBounds (BayesianOptimization_new [(2, 1)] 1e-6 0.01 42%Z) [1.5] = Some false.
Proof.
  apply (CheckBounds_inverted_bound mt19937
           (BayesianOptimization_new [(2, 1)] 1e-6 0.01 42%Z) [1.5] 0 1.5 (2, 1)).
  - simpl. lia.
  - reflexivity.
  - reflexivity.
  - reflexivity.
  - reflexivity.
Defined.

(** X13: from the bound [0, 1] to the bound [-1, 2]. *)
Lemma CheckBounds_widening_witness :
  CheckBounds (BayesianOptimization_new [(-1, 2)] 1e-6 0.01 42%Z) [0.5] = Some true.
Proof.
  apply (CheckBounds_widening mt19937 (session0 42%Z)
           (BayesianOptimization_new [(-1, 2)] 1e-6 0.01 42%Z) [0.5]).
  - constructor; [split; reflexivity|constructor].
  - reflexivity.
Defined.

(** X14 on the scenario, against the fourth restart. *)
Lemma ProposeLocation_maximises_witness :
  exists runs gen' x_next s' xj fxj ej,
    restart_runs minimize draw (objective fitted3 x_sample3)
      (dists_ fitted3) (d_ fitted3) (Z.to_nat 25) (gen_ fitted3) = Some (runs, gen') /\
    Propose fitted3 x_sample3 y_sample3 25 = Some (x_next, s') /\
    nth_error runs 3 = Some (xj, fxj) /\
    EI fitted3 [xj] x_sample3 = Some [ej] /\
    (((forall r, In r runs -> (snd r <? DBL_MAX) = false) /\ x_next = Zero (d_ fitted3)) \/
     (exists ei e,
        EI fitted3 [x_next] x_sample3 = Some ei /\
        coeff ei 0 = Some e /\
        (e <? ej) = false)).
Proof.
  do 7 eexists.
  split; [vm_compute; reflexivity|].
  split; [vm_compute; reflexivity|].
  split; [vm_compute; reflexivity|].
  split; [vm_compute; reflexivity|].
  eapply (ProposeLocation_maximises exp erfc kernel_predict ApproxFPrime minimize mt19937
            draw fitted3 x_sample3 y_sample3 25).
  - intros obj x0 x1 fx. apply Runs.minimize_reports.
  - vm_compute. reflexivity.
  - vm_compute. reflexivity.
  - do 3 right. left. reflexivity.
  - vm_compute. reflexivity.
  - vm_compute. reflexivity.
  - reflexivity.
Defined.

End CoverageRuns.
